(** * nvidia_exporter: the NVML telemetry collector

    A shallow embedding of [nvml.go] (the Go wrappers around the native
    NVML calls) and of [nvidia_exporter.go] (the Prometheus collector:
    [NewExporter], [Describe], [GetTelemetryFromNVML], [Collect]),
    followed by the properties of the poll cycle.

    Conventions of the embedding:
    - a Go [int] is a [Z] wrapped to 64 bits ([int_wrap]); a C
      [unsigned int] written by the driver is a [Z] reduced modulo 2^32;
    - a Go [map] is a [gmap]; a [range] over a map visits the entries in
      an order chosen by the runtime, which is a parameter ([MapRange]);
    - the native library is an oracle ([Driver]) giving, for one poll
      cycle, the return code and the value of every native call; every
      native call performed is appended to a trace;
    - a gauge holds [float64(n)] for an integer [n]; the model stores [n];
    - the Prometheus channel is the list of what was sent, in order;
    - a Go panic is an outcome of its own. *)

From stdpp Require Import gmap strings list fin_maps pretty.
From Stdlib Require Import ZArith Lia.

Local Open Scope Z_scope.

(* ===================================================================== *)
(** ** Go and C integers *)
(* ===================================================================== *)

(** Two's-complement wrap-around of a Go [int] (64 bits on the platforms
    the exporter builds for) and of an [int64]. *)
Definition int_wrap (z : Z) : Z := (z + 2 ^ 63) mod 2 ^ 64 - 2 ^ 63.

(** The value held by a C [unsigned int] after the driver stored [z]. *)
Definition C_uint (z : Z) : Z := z mod 2 ^ 32.

(** The value held by a C [unsigned long long]. *)
Definition C_ulonglong (z : Z) : Z := z mod 2 ^ 64.

(** [int(x)] and [int64(x)] conversions from a C unsigned value. *)
Definition int_of (z : Z) : Z := int_wrap z.
Definition int64_of (z : Z) : Z := int_wrap z.

(** Go's [a * b], [a + b] and [a / b] on [int]: wrap-around, and a
    quotient truncated toward zero. *)
Definition int_mul (a b : Z) : Z := int_wrap (a * b).
Definition int_add (a b : Z) : Z := int_wrap (a + b).
Definition int_div (a b : Z) : Z := int_wrap (Z.quot a b).

(** [strconv.Itoa]: the decimal representation, with a leading minus sign
    for negative numbers. *)
Definition Itoa (i : Z) : string := pretty i.

(* ===================================================================== *)
(** ** nvml.go: the native layer *)
(* ===================================================================== *)

Module NVML.

(** [nvmlReturn_t]: the C enumeration of return codes. *)
Definition nvmlReturn_t := Z.
Definition NVML_SUCCESS : nvmlReturn_t := 0.

(** [nvmlDevice_t]: an opaque device handle. *)
Definition nvmlDevice_t := Z.

(** Go errors built by [getGoError]. *)
Inductive error :=
| errNoErrorString
| errNoError
| Errorf_nvml (errString : string).

(** The native calls of the library, by name. *)
Inductive native :=
| nvmlDeviceGetCount
| nvmlDeviceGetHandleByIndex
| nvmlDeviceGetUUID
| nvmlDeviceGetName
| nvmlDeviceGetUtilizationRates
| nvmlDeviceGetTemperature
| nvmlDeviceGetPowerUsage
| nvmlDeviceGetFanSpeed
| nvmlDeviceGetMemoryInfo.

Global Instance native_eq_dec : EqDecision native.
Proof. solve_decision. Defined.

(** One native call: which function, on which handle (or index). *)
Definition call : Type := native * Z.

(** What the driver answers during one poll cycle. Each answer is the
    return code and the value stored through the out-pointer. *)
Record Driver := {
  errorString : nvmlReturn_t -> string;
  deviceCount : nvmlReturn_t * Z;
  handleByIndex : Z -> nvmlReturn_t * nvmlDevice_t;
  textProperty : native -> nvmlDevice_t -> nvmlReturn_t * string;
  intProperty : native -> nvmlDevice_t -> nvmlReturn_t * Z;
  utilizationRates : nvmlDevice_t -> nvmlReturn_t * (Z * Z);
  temperature : nvmlDevice_t -> nvmlReturn_t * Z;
  memoryInfo : nvmlDevice_t -> nvmlReturn_t * (Z * Z * Z)
}.

(** [getGoError]. The test [err != nil] after [nvmlErrorString] reads the
    named result [err], which is still nil there, so the branch returning
    [errNoErrorString] is never taken. *)
Definition getGoError (drv : Driver) (result : nvmlReturn_t) : option error :=
  if decide (result = NVML_SUCCESS) then Some errNoError
  else
    let err : option error := None in
    let errString := errorString drv result in
    if decide (err ≠ None) then Some errNoErrorString
    else Some (Errorf_nvml errString).

(** [Device]. *)
Record Device := {
  DeviceName : string;
  DeviceUUID : string;
  d : nvmlDevice_t;
  i : Z
}.

(** [NVMLMemory]. *)
Record NVMLMemory := {
  Free : Z;
  Total : Z;
  Used : Z
}.

(** [callGetTextFunc]. *)
Definition callGetTextFunc (drv : Driver) (s : Device) (f : native)
  : string * option error :=
  let '(result, cs) := textProperty drv f (d s) in
  if decide (result ≠ NVML_SUCCESS) then ("", getGoError drv result)
  else (cs, None).

(** [callGetIntFunc]. *)
Definition callGetIntFunc (drv : Driver) (s : Device) (f : native)
  : Z * option error :=
  let '(result, valC) := intProperty drv f (d s) in
  if decide (result ≠ NVML_SUCCESS) then (0, getGoError drv result)
  else (int_of (C_uint valC), None).

Definition UUID (drv : Driver) (s : Device) : string * option error :=
  callGetTextFunc drv s nvmlDeviceGetUUID.

Definition Name (drv : Driver) (s : Device) : string * option error :=
  callGetTextFunc drv s nvmlDeviceGetName.

(** [newDevice]. *)
Definition newDevice (drv : Driver) (nvmlDevice : nvmlDevice_t) (idx : Z)
  : Device * option error :=
  let dev := {| DeviceName := ""; DeviceUUID := ""; d := nvmlDevice; i := idx |} in
  let '(uuid, err) := UUID drv dev in
  let dev := {| DeviceName := DeviceName dev; DeviceUUID := uuid;
                d := d dev; i := i dev |} in
  if decide (err ≠ None) then (dev, err)
  else
    let '(name, err) := Name drv dev in
    let dev := {| DeviceName := name; DeviceUUID := DeviceUUID dev;
                  d := d dev; i := i dev |} in
    (dev, err).

(** [GetUtilization]. *)
Definition GetUtilization (drv : Driver) (s : Device) : Z * Z * option error :=
  let '(result, (gpu, memory)) := utilizationRates drv (d s) in
  if decide (result ≠ NVML_SUCCESS) then (0, 0, getGoError drv result)
  else (int_of (C_uint gpu), int_of (C_uint memory), None).

(** [GetPowerUsage]: the driver reports milliwatts, the method divides by
    1000 whether or not the call succeeded. *)
Definition GetPowerUsage (drv : Driver) (s : Device) : Z * option error :=
  let '(usage, err) := callGetIntFunc drv s nvmlDeviceGetPowerUsage in
  let usage := int_div usage 1000 in
  (usage, err).

(** [GetTemperature]: returns Fahrenheit and Celsius, in that order. *)
Definition GetTemperature (drv : Driver) (s : Device) : Z * Z * option error :=
  let '(result, tempc) := temperature drv (d s) in
  if decide (result ≠ NVML_SUCCESS) then (0, 0, getGoError drv result)
  else
    let tempC := int_of (C_uint tempc) in
    let tempF := int_add (int_div (int_mul tempC 9) 5) 32 in
    (tempF, tempC, None).

(** [GetMemoryInfo]. *)
Definition GetMemoryInfo (drv : Driver) (s : Device) : NVMLMemory * option error :=
  let '(result, (free, total, used)) := memoryInfo drv (d s) in
  if decide (result ≠ NVML_SUCCESS)
  then ({| Free := 0; Total := 0; Used := 0 |}, getGoError drv result)
  else ({| Free := int64_of (C_ulonglong free);
           Total := int64_of (C_ulonglong total);
           Used := int64_of (C_ulonglong used) |}, None).

(** Modelled from the spec: [Device.GetFanSpeed], which the exporter calls
    and [nvml.go] does not define. The spec gives it the shape
    [GetFanSpeed() -> (percent:int) | Error]; it is read like the other
    integer property, through [callGetIntFunc]. *)
Definition GetFanSpeed (drv : Driver) (s : Device) : Z * option error :=
  callGetIntFunc drv s nvmlDeviceGetFanSpeed.

(** [GetDeviceCount]. *)
Definition GetDeviceCount (drv : Driver) : Z * option error :=
  let '(result, cnt) := deviceCount drv in
  if decide (result ≠ NVML_SUCCESS) then (0, getGoError drv result)
  else (int_of (C_uint cnt), None).

(** The loop of [GetDevices]: [for i := 0; i <= devCount-1; i++], with
    [n] the number of iterations left and [devices] the slice filled so
    far (the entries not reached yet keep their zero value). *)
Definition zeroDevice : Device :=
  {| DeviceName := ""; DeviceUUID := ""; d := 0; i := 0 |}.

Fixpoint GetDevices_loop (drv : Driver) (n : nat) (idx : Z) (devices : list Device)
  : list Device * option error :=
  match n with
  | O => (devices, None)
  | S n' =>
      let '(result, nvdev) := handleByIndex drv (C_uint idx) in
      if decide (result ≠ NVML_SUCCESS) then (devices, getGoError drv result)
      else
        let '(dev, err) := newDevice drv nvdev idx in
        let devices := <[Z.to_nat idx := dev]> devices in
        if decide (err ≠ None) then (devices, err)
        else GetDevices_loop drv n' (idx + 1) devices
  end.

(** [GetDevices]. *)
Definition GetDevices (drv : Driver) : list Device * option error :=
  let '(devCount, err) := GetDeviceCount drv in
  if decide (err ≠ None) then ([], err)
  else
    let devices := replicate (Z.to_nat devCount) zeroDevice in
    GetDevices_loop drv (Z.to_nat devCount) 0 devices.

End NVML.

Import NVML.

(* ===================================================================== *)
(** ** The Prometheus client, as far as the exporter uses it *)
(* ===================================================================== *)

(** A metric descriptor: fully-qualified name, help text, label names. *)
Record Desc := {
  fqName : string;
  help : string;
  variableLabels : list string
}.

Global Instance Desc_eq_dec : EqDecision Desc.
Proof. solve_decision. Defined.

(** [prometheus.BuildFQName] with an empty subsystem. *)
Definition BuildFQName (namespace name : string) : string :=
  if decide (name = "") then ""
  else if decide (namespace ≠ "") then namespace +:+ "_" +:+ name
  else name.

(** A gauge and its current value. *)
Record Gauge := {
  gaugeDesc : Desc;
  gaugeValue : Z
}.

(** A gauge vector: one child gauge per tuple of label values. *)
Record GaugeVec := {
  vecDesc : Desc;
  children : gmap (list string) Z
}.

(** What travels on a [chan<- prometheus.Metric]. *)
Record Metric := {
  metricDesc : Desc;
  labelValues : list string;
  metricValue : Z
}.

Global Instance Metric_eq_dec : EqDecision Metric.
Proof. solve_decision. Defined.

Definition NewGauge (namespace name hlp : string) : Gauge :=
  {| gaugeDesc := {| fqName := BuildFQName namespace name; help := hlp;
                     variableLabels := [] |};
     gaugeValue := 0 |}.

Definition NewGaugeVec (namespace name hlp : string) (labels : list string) : GaugeVec :=
  {| vecDesc := {| fqName := BuildFQName namespace name; help := hlp;
                   variableLabels := labels |};
     children := ∅ |}.

(** [Gauge.Set]. *)
Definition Gauge_Set (v : Z) (g : Gauge) : Gauge :=
  {| gaugeDesc := gaugeDesc g; gaugeValue := v |}.

(** [GaugeVec.Reset]: drops every child. *)
Definition GaugeVec_Reset (vec : GaugeVec) : GaugeVec :=
  {| vecDesc := vecDesc vec; children := ∅ |}.

(** [vec.WithLabelValues(lvs...).Set(v)]: finds or creates the child for
    [lvs] and sets it. [WithLabelValues] panics ([None]) when the number
    of values differs from the number of label names. *)
Definition GaugeVec_WithLabelValues_Set (lvs : list string) (v : Z) (vec : GaugeVec)
  : option GaugeVec :=
  if decide (length lvs = length (variableLabels (vecDesc vec)))
  then Some {| vecDesc := vecDesc vec; children := <[lvs := v]> (children vec) |}
  else None.

(** The runtime's choice of an iteration order for [range] over a map:
    any enumeration of the entries, each once. *)
Record MapRange := {
  range : ∀ (K : Type) `{Countable K} (A : Type), gmap K A → list (K * A);
  range_perm : ∀ (K : Type) `{Countable K} (A : Type) (m : gmap K A),
    range K A m ≡ₚ map_to_list m
}.
Arguments range _ {K _ _ A} _.

(** One admissible order. *)
Definition range_canonical : MapRange :=
  {| range := λ K _ _ A m, map_to_list m;
     range_perm := λ K _ _ A m, reflexivity (map_to_list m) |}.

(** Another one: the canonical order backwards. *)
Program Definition range_reversed : MapRange :=
  {| range := λ K _ _ A m, reverse (map_to_list m) |}.
Next Obligation. intros. apply reverse_Permutation. Qed.

(** [GaugeVec.Collect]: sends every child. *)
Definition GaugeVec_Collect (R : MapRange) (vec : GaugeVec) : list Metric :=
  (λ '(lvs, v), {| metricDesc := vecDesc vec; labelValues := lvs; metricValue := v |})
    <$> range R (children vec).

(** [GaugeVec.Describe]: sends the descriptor. *)
Definition GaugeVec_Describe (vec : GaugeVec) : list Desc := [vecDesc vec].

(** Sending a plain gauge. *)
Definition Gauge_Metric (g : Gauge) : Metric :=
  {| metricDesc := gaugeDesc g; labelValues := []; metricValue := gaugeValue g |}.

(* ===================================================================== *)
(** ** nvidia_exporter.go *)
(* ===================================================================== *)

(** [VecInfo]. *)
Record VecInfo := {
  vhelp : string;
  labels : list string
}.

Definition DefaultNamespace : string := "nvml".

Definition deviceLabels : list string := ["device_id"; "device_uuid"; "device_name"].

(** The literal of [gaugeMetrics], entry by entry. *)
Definition gaugeMetrics_entries : list (string * VecInfo) :=
  [ ("power_watts",
     {| vhelp := "Power Usage of an NVIDIA GPU in Watts"; labels := deviceLabels |});
    ("fan_speed",
     {| vhelp := "Device Fan Speed in Percent of Maximum"; labels := deviceLabels |});
    ("gpu_percent",
     {| vhelp := "Percent of GPU Utilized"; labels := deviceLabels |});
    ("memory_free",
     {| vhelp := "Number of bytes free in the GPU Memory"; labels := deviceLabels |});
    ("memory_total",
     {| vhelp := "Total bytes of the GPU's memory"; labels := deviceLabels |});
    ("memory_used",
     {| vhelp := "Total number of bytes used in the GPU Memory"; labels := deviceLabels |});
    ("memory_percent",
     {| vhelp := "Percent of GPU Memory Utilized"; labels := deviceLabels |});
    ("temperature_fahrenheit",
     {| vhelp := "GPU Temperature in Fahrenheit"; labels := deviceLabels |});
    ("temperature_celsius",
     {| vhelp := "GPU Temperature in Celsius"; labels := deviceLabels |}) ].

(** [gaugeMetrics]. *)
Definition gaugeMetrics : gmap string VecInfo := list_to_map gaugeMetrics_entries.

(** [Exporter]. The mutex is left out: calls are modelled one at a time. *)
Record Exporter := {
  up : Gauge;
  gauges : gmap string GaugeVec;
  devices : list Device
}.

Definition set_up (g : Gauge) (e : Exporter) : Exporter :=
  {| up := g; gauges := gauges e; devices := devices e |}.

Definition set_gauges (gs : gmap string GaugeVec) (e : Exporter) : Exporter :=
  {| up := up e; gauges := gs; devices := devices e |}.

(** The gauge vector built for one entry of [gaugeMetrics]. *)
Definition gaugeVecFor (name : string) (info : VecInfo) : GaugeVec :=
  NewGaugeVec DefaultNamespace name (vhelp info) (labels info).

(** The struct literal and the loop of [NewExporter], once [GetDevices]
    has answered [devs]. *)
Definition newExporterWith (R : MapRange) (devs : list Device) : Exporter :=
  let exp := {| gauges := ∅;
                up := NewGauge DefaultNamespace "up" "Were the NVML queries successful?";
                devices := devs |} in
  foldl (λ exp '(name, info),
           set_gauges (<[name := gaugeVecFor name info]> (gauges exp)) exp)
        exp (range R gaugeMetrics).

(** [NewExporter]. *)
Definition NewExporter (R : MapRange) (drv : Driver) : option Exporter * option error :=
  let '(devs, err) := GetDevices drv in
  if decide (err ≠ None) then (None, err)
  else (Some (newExporterWith R devs), None).

(** [Describe]. *)
Definition Describe (R : MapRange) (e : Exporter) : list Desc :=
  let ch := [gaugeDesc (up e)] in
  foldl (λ ch '(_, vec), ch ++ GaugeVec_Describe vec) ch (range R (gauges e)).

(** The state a poll cycle works on: the exporter and the native calls
    made so far, oldest first. *)
Record World := {
  exp : Exporter;
  trace : list call
}.

(** Where control is after a piece of the loop body: at the next
    statement, at the label [ErrorFetching] with [err] set, or unwinding
    from a panic. *)
Inductive flow :=
| Continue (w : World)
| ErrorFetching (w : World) (err : option error)
| Panic (w : World).

(** A method of [device] went through the native call [f]. *)
Definition called (f : native) (device : Device) (w : World) : World :=
  {| exp := exp w; trace := trace w ++ [(f, d device)] |}.

(** [e.gauges[name].WithLabelValues(lvs...).Set(float64(v))], then [k].
    A name missing from the map yields a nil vector, and the call on it
    panics. *)
Definition set_gauge (name : string) (lvs : list string) (v : Z)
    (w : World) (k : World → flow) : flow :=
  match gauges (exp w) !! name with
  | None => Panic w
  | Some vec =>
      match GaugeVec_WithLabelValues_Set lvs v vec with
      | None => Panic w
      | Some vec' =>
          k {| exp := set_gauges (<[name := vec']> (gauges (exp w))) (exp w);
               trace := trace w |}
      end
  end.

(** The body of the loop of [GetTelemetryFromNVML], down to [continue]. *)
Definition device_body (drv : Driver) (idx : Z) (device : Device) (w : World) : flow :=
  let id := Itoa idx in
  let lvs := [id; DeviceUUID device; DeviceName device] in
  let '(gpuPercent, memoryPercent, err) := GetUtilization drv device in
  let w := called nvmlDeviceGetUtilizationRates device w in
  if decide (err ≠ None) then ErrorFetching w err else
  set_gauge "gpu_percent" lvs gpuPercent w (λ w,
  set_gauge "memory_percent" lvs memoryPercent w (λ w,
  let '(tempF, tempC, err) := GetTemperature drv device in
  let w := called nvmlDeviceGetTemperature device w in
  if decide (err ≠ None) then ErrorFetching w err else
  set_gauge "temperature_celsius" lvs tempC w (λ w,
  set_gauge "temperature_fahrenheit" lvs tempF w (λ w,
  let '(powerUsage, err) := GetPowerUsage drv device in
  let w := called nvmlDeviceGetPowerUsage device w in
  if decide (err ≠ None) then ErrorFetching w err else
  set_gauge "power_watts" lvs powerUsage w (λ w,
  let '(fanSpeed, err) := GetFanSpeed drv device in
  let w := called nvmlDeviceGetFanSpeed device w in
  if decide (err ≠ None) then ErrorFetching w err else
  set_gauge "fan_speed" lvs fanSpeed w (λ w,
  let '(gpuMem, err) := GetMemoryInfo drv device in
  let w := called nvmlDeviceGetMemoryInfo device w in
  if decide (err ≠ None) then ErrorFetching w err else
  set_gauge "memory_free" lvs (Free gpuMem) w (λ w,
  set_gauge "memory_total" lvs (Total gpuMem) w (λ w,
  set_gauge "memory_used" lvs (Used gpuMem) w (λ w,
  Continue w))))))))).

(** How a call ends. *)
Inductive outcome :=
| Returned (w : World)
| Panicked (w : World).

(** The [for idx, device := range e.devices] loop. At [ErrorFetching] the
    message is logged, [up] is set to 0 and the function returns. *)
Fixpoint telemetry_loop (drv : Driver) (idx : Z) (devs : list Device) (w : World)
  : outcome :=
  match devs with
  | [] => Returned w
  | device :: rest =>
      match device_body drv idx device w with
      | Continue w' => telemetry_loop drv (idx + 1) rest w'
      | ErrorFetching w' err =>
          Returned {| exp := set_up (Gauge_Set 0 (up (exp w'))) (exp w');
                      trace := trace w' |}
      | Panic w' => Panicked w'
      end
  end.

(** [GetTelemetryFromNVML]. *)
Definition GetTelemetryFromNVML (drv : Driver) (w : World) : outcome :=
  telemetry_loop drv 0 (devices (exp w)) w.

(** What one call of [Collect] leaves behind. *)
Record Collected := {
  after : Exporter;
  sent : list Metric;
  nativeCalls : list call;
  panicked : bool
}.

(** The first loop of [Collect]: [vec.Reset()] on every vector. *)
Definition reset_gauges (R : MapRange) (e : Exporter) : Exporter :=
  foldl (λ e '(name, vec),
           set_gauges (<[name := GaugeVec_Reset vec]> (gauges e)) e)
        e (range R (gauges e)).

(** The last loop of [Collect]: [vec.Collect(ch)] on every vector. *)
Definition collect_gauges (R : MapRange) (e : Exporter) : list Metric :=
  foldl (λ ch '(_, vec), ch ++ GaugeVec_Collect R vec) [] (range R (gauges e)).

(** [Collect]. The deferred send of [e.up] runs when the function
    returns and when it unwinds from a panic. *)
Definition Collect (R : MapRange) (drv : Driver) (e : Exporter) : Collected :=
  let e := reset_gauges R e in
  let e := set_up (Gauge_Set 1 (up e)) e in
  match GetTelemetryFromNVML drv {| exp := e; trace := [] |} with
  | Returned w =>
      let ch := collect_gauges R (exp w) in
      {| after := exp w; sent := ch ++ [Gauge_Metric (up (exp w))];
         nativeCalls := trace w; panicked := false |}
  | Panicked w =>
      {| after := exp w; sent := [Gauge_Metric (up (exp w))];
         nativeCalls := trace w; panicked := true |}
  end.

(** A poll cycle as the outside sees it: the driver's answers and the
    iteration order the runtime picks during that call. *)
Record Cycle := {
  cycleRange : MapRange;
  cycleDriver : Driver
}.

(** The exporter after [NewExporter] enumerated [devs] and the scrapes
    [cycles] were served, oldest first. *)
Definition exporter_after (R : MapRange) (devs : list Device) (cycles : list Cycle)
  : Exporter :=
  foldl (λ e c, after (Collect (cycleRange c) (cycleDriver c) e))
        (newExporterWith R devs) cycles.

(* ===================================================================== *)
(** ** Vocabulary for the properties *)
(* ===================================================================== *)

(** The sample of the series [name] for the label values [key], if any. *)
Definition sample (e : Exporter) (name : string) (key : list string) : option Z :=
  vec ← gauges e !! name; children vec !! key.

(** The label values the loop body uses for the device at position [idx]. *)
Definition device_key (idx : Z) (device : Device) : list string :=
  [Itoa idx; DeviceUUID device; DeviceName device].

(** The five queries of the loop body, in the order it makes them. *)
Inductive step := Utilization | Temperature | PowerUsage | FanSpeed | MemoryInfo.

Global Instance step_eq_dec : EqDecision step.
Proof. solve_decision. Defined.

Definition steps : list step :=
  [Utilization; Temperature; PowerUsage; FanSpeed; MemoryInfo].

(** The error each query returns for a device. *)
Definition step_error (drv : Driver) (device : Device) (st : step) : option error :=
  match st with
  | Utilization => (GetUtilization drv device).2
  | Temperature => (GetTemperature drv device).2
  | PowerUsage => (GetPowerUsage drv device).2
  | FanSpeed => (GetFanSpeed drv device).2
  | MemoryInfo => (GetMemoryInfo drv device).2
  end.

(** The native call behind each query. *)
Definition step_native (st : step) : native :=
  match st with
  | Utilization => nvmlDeviceGetUtilizationRates
  | Temperature => nvmlDeviceGetTemperature
  | PowerUsage => nvmlDeviceGetPowerUsage
  | FanSpeed => nvmlDeviceGetFanSpeed
  | MemoryInfo => nvmlDeviceGetMemoryInfo
  end.

(** The series the loop body fills after each query, with the value it
    stores, in the order of the assignments. *)
Definition step_writes (drv : Driver) (device : Device) (st : step) : list (string * Z) :=
  match st with
  | Utilization =>
      [("gpu_percent", (GetUtilization drv device).1.1);
       ("memory_percent", (GetUtilization drv device).1.2)]
  | Temperature =>
      [("temperature_celsius", (GetTemperature drv device).1.2);
       ("temperature_fahrenheit", (GetTemperature drv device).1.1)]
  | PowerUsage => [("power_watts", (GetPowerUsage drv device).1)]
  | FanSpeed => [("fan_speed", (GetFanSpeed drv device).1)]
  | MemoryInfo =>
      [("memory_free", Free (GetMemoryInfo drv device).1);
       ("memory_total", Total (GetMemoryInfo drv device).1);
       ("memory_used", Used (GetMemoryInfo drv device).1)]
  end.

(** The first query of a device that returns an error, with its position
    in [steps]. *)
Definition failing_step (drv : Driver) (device : Device) : option (nat * step) :=
  list_find (λ st, step_error drv device st ≠ None) steps.

(** The queries made for a device, and those that succeeded. *)
Definition attempted (drv : Driver) (device : Device) : list step :=
  match failing_step drv device with
  | Some (n, _) => take (S n) steps
  | None => steps
  end.

Definition completed (drv : Driver) (device : Device) : list step :=
  match failing_step drv device with
  | Some (n, _) => take n steps
  | None => steps
  end.

Definition device_writes (drv : Driver) (device : Device) : list (string * Z) :=
  completed drv device ≫= step_writes drv device.

Definition device_calls (drv : Driver) (device : Device) : list call :=
  (λ st, (step_native st, d device)) <$> attempted drv device.

(** The devices the loop reaches: all of them up to the first one with a
    failing query, that one included. *)
Fixpoint reached (drv : Driver) (devs : list Device) : list Device :=
  match devs with
  | [] => []
  | device :: rest =>
      device :: match failing_step drv device with
                | Some _ => []
                | None => reached drv rest
                end
  end.

(** The descriptors [NewExporter] gives to [up] and to the vectors. *)
Definition upDesc : Desc :=
  gaugeDesc (NewGauge DefaultNamespace "up" "Were the NVML queries successful?").

Definition catalogDescs : list (string * Desc) :=
  (λ '(name, info), (name, vecDesc (gaugeVecFor name info))) <$> gaugeMetrics_entries.

(** The value written last for [name] in a list of writes. *)
Fixpoint last_write (name : string) (ws : list (string * Z)) : option Z :=
  match ws with
  | [] => None
  | (n, v) :: ws' =>
      match last_write name ws' with
      | Some v' => Some v'
      | None => if decide (name = n) then Some v else None
      end
  end.

(** The sample the loop leaves for [name] and [key] when it starts at
    position [idx] on [devs]: later writes override earlier ones. *)
Fixpoint loop_sample (drv : Driver) (idx : Z) (devs : list Device)
    (name : string) (key : list string) : option Z :=
  match devs with
  | [] => None
  | device :: rest =>
      let later :=
        match failing_step drv device with
        | Some _ => None
        | None => loop_sample drv (idx + 1) rest name key
        end in
      match later with
      | Some v => Some v
      | None =>
          if decide (key = device_key idx device)
          then last_write name (device_writes drv device)
          else None
      end
  end.

(** The exporter keeps the schema [NewExporter] gave it. *)
Definition wf (e : Exporter) : Prop :=
  vecDesc <$> gauges e = list_to_map catalogDescs ∧ gaugeDesc (up e) = upDesc.

(** The world after the assignment [set_gauge] makes. *)
Definition put (lvs : list string) (w : World) (nv : string * Z) : World :=
  {| exp := set_gauges
              (alter (λ vec, {| vecDesc := vecDesc vec;
                                children := <[lvs := nv.2]> (children vec) |})
                     nv.1 (gauges (exp w)))
              (exp w);
     trace := trace w |}.

(** A device fails when one of its queries returns an error. *)
Definition fails (drv : Driver) (device : Device) : Prop :=
  failing_step drv device ≠ None.

Global Instance fails_dec (drv : Driver) (device : Device) : Decision (fails drv device).
Proof. unfold fails. apply _. Defined.

(** The native calls of one run of the loop. *)
Definition loop_calls (drv : Driver) (devs : list Device) : list call :=
  reached drv devs ≫= device_calls drv.

(** No device before position [j] fails. *)
Definition none_failed_before (drv : Driver) (devs : list Device) (j : nat) : Prop :=
  ∀ j' dj', (j' < j)%nat → devs !! j' = Some dj' → failing_step drv dj' = None.



(** The world after the loop body ran for one device: its native calls
    are on the trace and the writes of its successful queries are made. *)
Definition body_result (drv : Driver) (idx : Z) (device : Device) (w : World) : World :=
  foldl (put (device_key idx device))
        {| exp := exp w; trace := trace w ++ device_calls drv device |}
        (device_writes drv device).



(* ===================================================================== *)
(** ** Test inputs *)
(* ===================================================================== *)

(** The device of the end-to-end scenario, and two more. *)
Definition gpu0 : Device :=
  {| DeviceName := "Test-GPU"; DeviceUUID := "GPU-abc"; d := 0; i := 0 |}.
Definition gpu1 : Device :=
  {| DeviceName := "Test-GPU"; DeviceUUID := "GPU-def"; d := 1; i := 1 |}.
Definition gpu2 : Device :=
  {| DeviceName := "Test-GPU"; DeviceUUID := "GPU-ghi"; d := 2; i := 2 |}.

(** A driver on which every call succeeds, with the readings of the
    end-to-end scenario: utilization (42, 17), 70 degrees, 125500 mW,
    fan at 55%, memory (free 1000, total 4000, used 3000). *)
Definition healthy_driver : Driver :=
  {| errorString := λ _, "Unknown Error";
     deviceCount := (NVML_SUCCESS, 3);
     handleByIndex := λ idx, (NVML_SUCCESS, idx);
     textProperty := λ f h,
       (NVML_SUCCESS,
        if decide (f = nvmlDeviceGetName) then "Test-GPU"
        else if decide (h = 0) then "GPU-abc"
        else if decide (h = 1) then "GPU-def" else "GPU-ghi");
     intProperty := λ f _,
       (NVML_SUCCESS, if decide (f = nvmlDeviceGetPowerUsage) then 125500 else 55);
     utilizationRates := λ _, (NVML_SUCCESS, (42, 17));
     temperature := λ _, (NVML_SUCCESS, 70);
     memoryInfo := λ _, (NVML_SUCCESS, (1000, 4000, 3000)) |}.


(* ===================================================================== *)
(** ** Vocabulary for the device layer and the enumeration *)
(* ===================================================================== *)

(** The error a device method returns for the return code of its native
    call. *)
Definition method_error (drv : Driver) (result : nvmlReturn_t) : option error :=
  if decide (result = NVML_SUCCESS) then None
  else Some (Errorf_nvml (errorString drv result)).

(** The device [GetDevices] stores for the index [k] when the handle, the
    UUID and the name are all obtained. *)
Definition enumerated (drv : Driver) (k : Z) : Device :=
  let h := (handleByIndex drv k).2 in
  {| DeviceName := (textProperty drv nvmlDeviceGetName h).2;
     DeviceUUID := (textProperty drv nvmlDeviceGetUUID h).2;
     d := h;
     i := k |}.

(** The three native calls [GetDevices] makes for the index [k] succeed. *)
Definition enumerates_ok (drv : Driver) (k : Z) : Prop :=
  (handleByIndex drv k).1 = NVML_SUCCESS
  ∧ (textProperty drv nvmlDeviceGetUUID (handleByIndex drv k).2).1 = NVML_SUCCESS
  ∧ (textProperty drv nvmlDeviceGetName (handleByIndex drv k).2).1 = NVML_SUCCESS.

Global Instance enumerates_ok_dec (drv : Driver) (k : Z) : Decision (enumerates_ok drv k).
Proof. unfold enumerates_ok. apply _. Defined.

(** The devices of the indices [a], [a+1], ..., [a+n-1]. *)
Definition enumerated_range (drv : Driver) (a n : nat) : list Device :=
  (λ k, enumerated drv (Z.of_nat k)) <$> seq a n.

(** The healthy driver, except that the UUID of the device with handle
    [h] cannot be read ([NVML_ERROR_UNKNOWN], 999). *)
Definition uuid_fails_on (h : nvmlDevice_t) : Driver :=
  {| errorString := errorString healthy_driver;
     deviceCount := deviceCount healthy_driver;
     handleByIndex := handleByIndex healthy_driver;
     textProperty := λ f h',
       if decide (f = nvmlDeviceGetUUID ∧ h' = h) then (999, "")
       else textProperty healthy_driver f h';
     intProperty := intProperty healthy_driver;
     utilizationRates := utilizationRates healthy_driver;
     temperature := temperature healthy_driver;
     memoryInfo := memoryInfo healthy_driver |}.


(** The healthy driver, except that the device count cannot be read
    ([NVML_ERROR_UNINITIALIZED], 1). *)
Definition uninitialized_driver : Driver :=
  {| errorString := λ _, "Uninitialized";
     deviceCount := (1, 0);
     handleByIndex := handleByIndex healthy_driver;
     textProperty := textProperty healthy_driver;
     intProperty := intProperty healthy_driver;
     utilizationRates := utilizationRates healthy_driver;
     temperature := temperature healthy_driver;
     memoryInfo := memoryInfo healthy_driver |}.

(** The healthy driver, except that it reports a total memory of 2^64 - 1
    bytes (all bits set). *)
Definition saturated_memory_driver : Driver :=
  {| errorString := errorString healthy_driver;
     deviceCount := deviceCount healthy_driver;
     handleByIndex := handleByIndex healthy_driver;
     textProperty := textProperty healthy_driver;
     intProperty := intProperty healthy_driver;
     utilizationRates := utilizationRates healthy_driver;
     temperature := temperature healthy_driver;
     memoryInfo := λ _, (NVML_SUCCESS, (0, 2 ^ 64 - 1, 0)) |}.

(* ===================================================================== *)
(** ** Integers and strings *)
(* ===================================================================== *)

Lemma int_wrap_small (z : Z) : - 2 ^ 63 ≤ z < 2 ^ 63 → int_wrap z = z.
Proof.
  intros Hz. unfold int_wrap.
  rewrite Z.mod_small by lia. lia.
Qed.

Lemma C_uint_range (z : Z) : 0 ≤ C_uint z < 2 ^ 32.
Proof. unfold C_uint. apply Z.mod_pos_bound. lia. Qed.

Lemma int_of_C_uint (z : Z) : int_of (C_uint z) = C_uint z.
Proof.
  unfold int_of. apply int_wrap_small.
  pose proof (C_uint_range z). lia.
Qed.



Lemma device_key_length (idx : Z) (device : Device) :
  length (device_key idx device) = 3%nat.
Proof. reflexivity. Qed.

(* ===================================================================== *)
(** ** Loops over a map *)
(* ===================================================================== *)

Section range_loops.
Context {K : Type} `{Countable K} {A B : Type}.
Implicit Types (f : K → A → B) (l : list (K * A)).

Lemma foldl_insert_lookup f l (acc : gmap K B) (k : K) :
  NoDup l.*1 →
  foldl (λ acc '(k, v), <[k := f k v]> acc) acc l !! k =
    match (list_to_map l : gmap K A) !! k with
    | Some v => Some (f k v)
    | None => acc !! k
    end.
Proof.
  revert acc. induction l as [|[k0 v0] l IH]; intros acc Hnd; simpl.
  - by rewrite lookup_empty.
  - apply NoDup_cons in Hnd as [Hk0 Hnd]. rewrite IH by done.
    destruct (decide (k0 = k)) as [->|Hne].
    + rewrite lookup_insert_eq.
      rewrite (not_elem_of_list_to_map_1 l k) by done.
      by rewrite lookup_insert_eq.
    + by rewrite !lookup_insert_ne by done.
Qed.

Lemma range_NoDup (R : MapRange) (m : gmap K A) : NoDup (range R m).*1.
Proof. rewrite (range_perm R). apply NoDup_fst_map_to_list. Qed.

Lemma range_to_map (R : MapRange) (m : gmap K A) : list_to_map (range R m) = m.
Proof.
  rewrite <-(list_to_map_to_list m) at 2.
  apply list_to_map_proper; [apply range_NoDup | apply range_perm].
Qed.

Lemma range_fold_insert (R : MapRange) f (m : gmap K A) (acc : gmap K B) (k : K) :
  foldl (λ acc '(k, v), <[k := f k v]> acc) acc (range R m) !! k =
    match m !! k with
    | Some v => Some (f k v)
    | None => acc !! k
    end.
Proof.
  rewrite foldl_insert_lookup by apply range_NoDup.
  by rewrite range_to_map.
Qed.

Lemma elem_of_range (R : MapRange) (m : gmap K A) (k : K) (v : A) :
  (k, v) ∈ range R m ↔ m !! k = Some v.
Proof. rewrite (range_perm R). apply elem_of_map_to_list. Qed.
End range_loops.

Lemma list_to_map_fmap_values {X Y : Type} (g : string → X → Y)
    (l : list (string * X)) (k : string) :
  (list_to_map ((λ '(n, x), (n, g n x)) <$> l) : gmap string Y) !! k =
    g k <$> (list_to_map l : gmap string X) !! k.
Proof.
  induction l as [|[n x] l IH]; csimpl.
  - by rewrite !lookup_empty.
  - destruct (decide (n = k)) as [->|Hne].
    + by rewrite !lookup_insert_eq.
    + by rewrite !lookup_insert_ne by done.
Qed.

(* ===================================================================== *)
(** ** The schema and the loop body *)
(* ===================================================================== *)

Lemma catalogDescs_NoDup : NoDup catalogDescs.*1.
Proof. apply (bool_decide_unpack _). vm_compute. exact I. Qed.

Lemma wf_lookup (e : Exporter) (name : string) :
  wf e → vecDesc <$> gauges e !! name = (list_to_map catalogDescs : gmap string Desc) !! name.
Proof. intros [Hg _]. by rewrite <-Hg, lookup_fmap. Qed.

Lemma sample_put (lvs : list string) (w : World) (n : string) (v : Z)
    (name : string) (key : list string) :
  is_Some (gauges (exp w) !! n) →
  sample (exp (put lvs w (n, v))) name key =
    if decide (key = lvs)
    then (if decide (name = n) then Some v else sample (exp w) name key)
    else sample (exp w) name key.
Proof.
  intros [vec Hvec]. unfold sample, put; simpl.
  destruct (decide (name = n)) as [->|Hne].
  - rewrite lookup_alter_eq, Hvec; simpl.
    destruct (decide (key = lvs)) as [->|Hk].
    + by rewrite lookup_insert_eq.
    + by rewrite lookup_insert_ne.
  - rewrite lookup_alter_ne by done. by destruct (decide (key = lvs)).
Qed.

Lemma wf_put (lvs : list string) (w : World) (nv : string * Z) :
  wf (exp w) → wf (exp (put lvs w nv)).
Proof.
  intros [Hg Hu]. split; [|done]. rewrite <-Hg. simpl.
  apply map_eq. intros k. rewrite !lookup_fmap.
  destruct (decide (k = nv.1)) as [->|Hne].
  - rewrite lookup_alter_eq. by destruct (gauges (exp w) !! nv.1).
  - by rewrite lookup_alter_ne.
Qed.

Lemma set_gauge_wf (name : string) (lvs : list string) (v : Z) (w : World)
    (k : World → flow) (D : Desc) :
  wf (exp w) →
  (list_to_map catalogDescs : gmap string Desc) !! name = Some D →
  length lvs = length (variableLabels D) →
  set_gauge name lvs v w k = k (put lvs w (name, v)).
Proof.
  intros Hwf HD Hlen. unfold set_gauge.
  pose proof (wf_lookup _ name Hwf) as Hl. rewrite HD in Hl.
  destruct (gauges (exp w) !! name) as [vec|] eqn:Hvec; [|done].
  simpl in Hl. injection Hl as <-.
  unfold GaugeVec_WithLabelValues_Set.
  rewrite decide_True by done. f_equal. unfold put. f_equal. f_equal. simpl.
  apply map_eq. intros n. destruct (decide (n = name)) as [->|Hne].
  - by rewrite lookup_insert_eq, lookup_alter_eq, Hvec.
  - rewrite lookup_insert_ne by congruence. rewrite lookup_alter_ne by congruence. done.
Qed.

Lemma catalog_has (name : string) :
  name ∈ catalogDescs.*1 →
  ∃ D, (list_to_map catalogDescs : gmap string Desc) !! name = Some D
       ∧ length (variableLabels D) = 3%nat.
Proof.
  intros Hin. apply list_elem_of_fmap in Hin as [[n D] [-> Hin]].
  exists D. split.
  - apply elem_of_list_to_map; [apply catalogDescs_NoDup | done].
  - unfold catalogDescs in Hin.
    apply list_elem_of_fmap in Hin as [[n' info] [[= -> ->] Hin]].
    simpl. unfold gaugeMetrics_entries in Hin.
    repeat (apply elem_of_cons in Hin as [[= -> ->]|Hin]; [reflexivity|]).
    by apply elem_of_nil in Hin.
Qed.

Lemma set_gauge_catalog (name : string) (lvs : list string) (v : Z) (w : World)
    (k : World → flow) :
  wf (exp w) → name ∈ catalogDescs.*1 → length lvs = 3%nat →
  set_gauge name lvs v w k = k (put lvs w (name, v)).
Proof.
  intros Hwf [D [HD HL]]%catalog_has Hlen.
  apply (set_gauge_wf _ _ _ _ _ D); [done..|congruence].
Qed.

Lemma failing_step_unfold (drv : Driver) (device : Device) :
  failing_step drv device =
    if decide (step_error drv device Utilization ≠ None) then Some (0%nat, Utilization)
    else if decide (step_error drv device Temperature ≠ None) then Some (1%nat, Temperature)
    else if decide (step_error drv device PowerUsage ≠ None) then Some (2%nat, PowerUsage)
    else if decide (step_error drv device FanSpeed ≠ None) then Some (3%nat, FanSpeed)
    else if decide (step_error drv device MemoryInfo ≠ None) then Some (4%nat, MemoryInfo)
    else None.
Proof. unfold failing_step, steps. simpl. repeat case_decide; reflexivity. Qed.

Lemma World_eq (w1 w2 : World) : exp w1 = exp w2 → trace w1 = trace w2 → w1 = w2.
Proof. destruct w1, w2; simpl; congruence. Qed.

Ltac in_catalog := apply (bool_decide_unpack _); vm_compute; exact I.

Lemma wf_called (f : native) (device : Device) (w : World) :
  wf (exp w) → wf (exp (called f device w)).
Proof. done. Qed.

Ltac set_step Hwf :=
  rewrite set_gauge_catalog;
  [ | repeat (apply wf_put || apply wf_called); exact Hwf | in_catalog | reflexivity ].

Lemma device_body_spec (drv : Driver) (idx : Z) (device : Device) (w : World) :
  wf (exp w) →
  device_body drv idx device w =
    match failing_step drv device with
    | None => Continue (body_result drv idx device w)
    | Some (_, st) =>
        ErrorFetching (body_result drv idx device w) (step_error drv device st)
    end.
Proof.
  intros Hwf. unfold body_result, device_writes, device_calls, completed, attempted.
  rewrite failing_step_unfold. unfold device_body, step_error.
  fold (device_key idx device).
  destruct (GetUtilization drv device) as [[gpu mem] e1] eqn:HU.
  destruct (GetTemperature drv device) as [[tempF tempC] e2] eqn:HT.
  destruct (GetPowerUsage drv device) as [powerUsage e3] eqn:HP.
  destruct (GetFanSpeed drv device) as [fanSpeed e4] eqn:HF.
  destruct (GetMemoryInfo drv device) as [gpuMem e5] eqn:HM.
  simpl.
  assert (Hclose : ∀ w1 w2 : World, exp w1 = exp w2 → trace w1 = trace w2 → w1 = w2)
    by apply World_eq.
  case_decide; [by f_equal|]. do 2 set_step Hwf.
  case_decide.
  { f_equal. unfold step_writes. rewrite HU. simpl.
    apply Hclose; simpl; [done | by rewrite <-?app_assoc]. }
  do 2 set_step Hwf.
  case_decide.
  { f_equal. unfold step_writes. rewrite HU, HT. simpl.
    apply Hclose; simpl; [done | by rewrite <-?app_assoc]. }
  set_step Hwf.
  case_decide.
  { f_equal. unfold step_writes. rewrite HU, HT, HP. simpl.
    apply Hclose; simpl; [done | by rewrite <-?app_assoc]. }
  set_step Hwf.
  case_decide.
  { f_equal. unfold step_writes. rewrite HU, HT, HP, HF. simpl.
    apply Hclose; simpl; [done | by rewrite <-?app_assoc]. }
  do 3 set_step Hwf.
  f_equal. unfold step_writes. rewrite HU, HT, HP, HF, HM. simpl.
  apply Hclose; simpl; [done | by rewrite <-?app_assoc].
Qed.

Lemma wf_in_gauges (e : Exporter) (name : string) :
  wf e → name ∈ catalogDescs.*1 → is_Some (gauges e !! name).
Proof.
  intros Hwf [D [HD _]]%catalog_has.
  pose proof (wf_lookup e name Hwf) as Hl. rewrite HD in Hl.
  destruct (gauges e !! name); [eauto | done].
Qed.

Lemma step_writes_in_catalog (drv : Driver) (device : Device) (st : step)
    (n : string) (v : Z) :
  (n, v) ∈ step_writes drv device st → n ∈ catalogDescs.*1.
Proof.
  destruct st; simpl; intros Hin;
    repeat (apply elem_of_cons in Hin as [[= -> _]|Hin]; [in_catalog|]);
    by apply elem_of_nil in Hin.
Qed.

Lemma device_writes_in_catalog (drv : Driver) (device : Device) (n : string) (v : Z) :
  (n, v) ∈ device_writes drv device → n ∈ catalogDescs.*1.
Proof.
  unfold device_writes. intros (st & Hin & _)%list_elem_of_bind.
  by eapply step_writes_in_catalog.
Qed.

Section puts.
Context (lvs : list string).

Lemma foldl_put_wf (ws : list (string * Z)) (w : World) :
  wf (exp w) → wf (exp (foldl (put lvs) w ws)).
Proof.
  revert w. induction ws as [|nv ws IH]; intros w Hwf; simpl; [done|].
  apply IH. by apply wf_put.
Qed.

Lemma foldl_put_frame (ws : list (string * Z)) (w : World) :
  up (exp (foldl (put lvs) w ws)) = up (exp w)
  ∧ devices (exp (foldl (put lvs) w ws)) = devices (exp w)
  ∧ trace (foldl (put lvs) w ws) = trace w.
Proof.
  revert w. induction ws as [|nv ws IH]; intros w; simpl; [done|].
  destruct (IH (put lvs w nv)) as (-> & -> & ->). done.
Qed.

Lemma foldl_put_sample (ws : list (string * Z)) (w : World)
    (name : string) (key : list string) :
  wf (exp w) →
  (∀ n v, (n, v) ∈ ws → n ∈ catalogDescs.*1) →
  sample (exp (foldl (put lvs) w ws)) name key =
    if decide (key = lvs)
    then match last_write name ws with
         | Some v => Some v
         | None => sample (exp w) name key
         end
    else sample (exp w) name key.
Proof.
  revert w. induction ws as [|[n v] ws IH]; intros w Hwf Hin; simpl.
  - by case_decide.
  - rewrite IH; [|by apply wf_put|intros ???; eapply Hin; by right].
    rewrite sample_put
      by (apply wf_in_gauges; [done | eapply Hin; left]).
    case_decide; [|done].
    destruct (last_write name ws); [done|]. by case_decide.
Qed.
End puts.

Lemma body_result_wf (drv : Driver) (idx : Z) (device : Device) (w : World) :
  wf (exp w) → wf (exp (body_result drv idx device w)).
Proof. intros Hwf. unfold body_result. by apply foldl_put_wf. Qed.

Lemma body_result_frame (drv : Driver) (idx : Z) (device : Device) (w : World) :
  up (exp (body_result drv idx device w)) = up (exp w)
  ∧ devices (exp (body_result drv idx device w)) = devices (exp w)
  ∧ trace (body_result drv idx device w) = trace w ++ device_calls drv device.
Proof.
  unfold body_result.
  by destruct (foldl_put_frame (device_key idx device) (device_writes drv device)
    {| exp := exp w; trace := trace w ++ device_calls drv device |}) as (-> & -> & ->).
Qed.

Lemma body_result_sample (drv : Driver) (idx : Z) (device : Device) (w : World)
    (name : string) (key : list string) :
  wf (exp w) →
  sample (exp (body_result drv idx device w)) name key =
    if decide (key = device_key idx device)
    then match last_write name (device_writes drv device) with
         | Some v => Some v
         | None => sample (exp w) name key
         end
    else sample (exp w) name key.
Proof.
  intros Hwf. unfold body_result.
  rewrite foldl_put_sample; [done|done|].
  intros n v. apply device_writes_in_catalog.
Qed.

Lemma telemetry_loop_spec (drv : Driver) (devs : list Device) :
  ∀ (idx : Z) (w : World), wf (exp w) →
  ∃ w', telemetry_loop drv idx devs w = Returned w'
    ∧ wf (exp w')
    ∧ devices (exp w') = devices (exp w)
    ∧ trace w' = trace w ++ loop_calls drv devs
    ∧ gaugeValue (up (exp w')) =
        match list_find (fails drv) devs with
        | Some _ => 0
        | None => gaugeValue (up (exp w))
        end
    ∧ ∀ name key,
        sample (exp w') name key =
          match loop_sample drv idx devs name key with
          | Some v => Some v
          | None => sample (exp w) name key
          end.
Proof.
  induction devs as [|device rest IH]; intros idx w Hwf; simpl.
  - exists w. unfold loop_calls. simpl. by rewrite app_nil_r.
  - rewrite device_body_spec by done.
    pose proof (body_result_wf drv idx device w Hwf) as Hwf'.
    pose proof (body_result_frame drv idx device w) as (Hup & Hdev & Htr).
    unfold loop_calls; simpl.
    destruct (failing_step drv device) as [[n st]|] eqn:Hfs.
    + eexists. split; [done|]. simpl.
      rewrite decide_True by (unfold fails; by rewrite Hfs).
      split_and!; try done.
      * by rewrite Htr, app_nil_r.
      * intros name key. unfold sample; simpl. fold (sample (exp (body_result drv idx device w)) name key).
        rewrite body_result_sample by done.
        case_decide; [|done]. by destruct (last_write _ _).
    + destruct (IH (idx + 1) _ Hwf') as (w' & -> & Hwf'' & Hdev' & Htr' & Hup' & Hs).
      exists w'. rewrite decide_False by (unfold fails; rewrite Hfs; by intros ?).
      split_and!; try done.
      * congruence.
      * rewrite Htr', Htr. by rewrite <-app_assoc.
      * rewrite Hup', Hup.
        by destruct (list_find (fails drv) rest) as [[??]|].
      * intros name key. rewrite Hs, body_result_sample by done.
        destruct (loop_sample drv (idx + 1) rest name key); [done|].
        case_decide; [|done]. by destruct (last_write _ _).
Qed.

(* ===================================================================== *)
(** ** Construction, reset and [Collect] *)
(* ===================================================================== *)

Lemma foldl_set_gauges {X : Type} (g : string → X → GaugeVec)
    (l : list (string * X)) (e : Exporter) :
  let e' := foldl (λ e '(n, x), set_gauges (<[n := g n x]> (gauges e)) e) e l in
  gauges e' = foldl (λ acc '(n, x), <[n := g n x]> acc) (gauges e) l
  ∧ up e' = up e ∧ devices e' = devices e.
Proof.
  revert e. induction l as [|[n x] l IH]; intros e; simpl; [done|].
  destruct (IH (set_gauges (<[n := g n x]> (gauges e)) e)) as (-> & -> & ->).
  done.
Qed.

Lemma newExporterWith_gauges (R : MapRange) (devs : list Device) (name : string) :
  gauges (newExporterWith R devs) !! name = gaugeVecFor name <$> gaugeMetrics !! name.
Proof.
  unfold newExporterWith.
  destruct (foldl_set_gauges gaugeVecFor (range R gaugeMetrics)
    {| up := NewGauge DefaultNamespace "up" "Were the NVML queries successful?";
       gauges := ∅; devices := devs |}) as (-> & _ & _).
  rewrite range_fold_insert. simpl.
  by destruct (gaugeMetrics !! name).
Qed.

Lemma newExporterWith_frame (R : MapRange) (devs : list Device) :
  up (newExporterWith R devs)
    = NewGauge DefaultNamespace "up" "Were the NVML queries successful?"
  ∧ devices (newExporterWith R devs) = devs.
Proof.
  unfold newExporterWith.
  by destruct (foldl_set_gauges gaugeVecFor (range R gaugeMetrics)
    {| up := NewGauge DefaultNamespace "up" "Were the NVML queries successful?";
       gauges := ∅; devices := devs |}) as (_ & -> & ->).
Qed.

Lemma newExporterWith_wf (R : MapRange) (devs : list Device) :
  wf (newExporterWith R devs).
Proof.
  split.
  - apply map_eq. intros name.
    rewrite lookup_fmap, newExporterWith_gauges.
    unfold catalogDescs, gaugeMetrics.
    rewrite (list_to_map_fmap_values (λ n info, vecDesc (gaugeVecFor n info))).
    by destruct (list_to_map gaugeMetrics_entries !! name).
  - by destruct (newExporterWith_frame R devs) as [-> _].
Qed.

Lemma newExporterWith_sample (R : MapRange) (devs : list Device)
    (name : string) (key : list string) :
  sample (newExporterWith R devs) name key = None.
Proof.
  unfold sample. rewrite newExporterWith_gauges.
  by destruct (gaugeMetrics !! name).
Qed.

Lemma reset_gauges_gauges (R : MapRange) (e : Exporter) :
  gauges (reset_gauges R e) = GaugeVec_Reset <$> gauges e
  ∧ up (reset_gauges R e) = up e ∧ devices (reset_gauges R e) = devices e.
Proof.
  unfold reset_gauges.
  destruct (foldl_set_gauges (λ _, GaugeVec_Reset) (range R (gauges e)) e)
    as (-> & -> & ->).
  split; [|done]. apply map_eq. intros name.
  rewrite range_fold_insert, lookup_fmap.
  by destruct (gauges e !! name).
Qed.

Lemma reset_gauges_wf (R : MapRange) (e : Exporter) : wf e → wf (reset_gauges R e).
Proof.
  intros [Hg Hu]. destruct (reset_gauges_gauges R e) as (Hg' & Hu' & _).
  split; [|by rewrite Hu'].
  rewrite Hg', <-Hg. apply map_eq. intros name.
  rewrite !lookup_fmap. by destruct (gauges e !! name).
Qed.

Lemma reset_gauges_sample (R : MapRange) (e : Exporter)
    (name : string) (key : list string) :
  sample (reset_gauges R e) name key = None.
Proof.
  unfold sample. destruct (reset_gauges_gauges R e) as (-> & _ & _).
  rewrite lookup_fmap. by destruct (gauges e !! name).
Qed.

(** [Collect] on an exporter that has its schema. *)
Lemma Collect_spec (R : MapRange) (drv : Driver) (e : Exporter) :
  wf e →
  let r := Collect R drv e in
  panicked r = false
  ∧ wf (after r)
  ∧ devices (after r) = devices e
  ∧ sent r = collect_gauges R (after r) ++ [Gauge_Metric (up (after r))]
  ∧ nativeCalls r = loop_calls drv (devices e)
  ∧ gaugeValue (up (after r)) =
      match list_find (fails drv) (devices e) with Some _ => 0 | None => 1 end
  ∧ ∀ name key, sample (after r) name key = loop_sample drv 0 (devices e) name key.
Proof.
  intros Hwf. unfold Collect, GetTelemetryFromNVML. simpl.
  destruct (reset_gauges_gauges R e) as (Hg & Hu & Hd).
  set (e1 := set_up (Gauge_Set 1 (up (reset_gauges R e))) (reset_gauges R e)).
  assert (wf e1) as Hwf1.
  { destruct (reset_gauges_wf R e Hwf) as [? Hud]. split; [done|]. simpl. by rewrite Hu in *. }
  destruct (telemetry_loop_spec drv (devices (reset_gauges R e)) 0
              {| exp := e1; trace := [] |} Hwf1)
    as (w' & -> & Hwf' & Hdev & Htr & Hup & Hs).
  simpl in *. rewrite Hd in *.
  split_and!; try done.
  intros name key. rewrite Hs.
  destruct (loop_sample drv 0 (devices e) name key); [done|].
  apply reset_gauges_sample.
Qed.

Lemma exporter_after_snoc (R : MapRange) (devs : list Device) (cycles : list Cycle)
    (c : Cycle) :
  exporter_after R devs (cycles ++ [c]) =
    after (Collect (cycleRange c) (cycleDriver c) (exporter_after R devs cycles)).
Proof. unfold exporter_after. by rewrite foldl_app. Qed.

Lemma exporter_after_wf (R : MapRange) (devs : list Device) (cycles : list Cycle) :
  wf (exporter_after R devs cycles) ∧ devices (exporter_after R devs cycles) = devs.
Proof.
  induction cycles as [|c cycles IH] using rev_ind.
  - split; [apply newExporterWith_wf | apply newExporterWith_frame].
  - rewrite exporter_after_snoc. destruct IH as [Hwf Hd].
    destruct (Collect_spec (cycleRange c) (cycleDriver c) _ Hwf) as (_ & ? & ? & _).
    split; [done | congruence].
Qed.

(* ===================================================================== *)
(** ** What the loop leaves in the series *)
(* ===================================================================== *)

Lemma failing_step_bound (drv : Driver) (device : Device) (s : nat) (st : step) :
  failing_step drv device = Some (s, st) →
  steps !! s = Some st ∧ step_error drv device st ≠ None
  ∧ ∀ p st', steps !! p = Some st' → (p < s)%nat → step_error drv device st' = None.
Proof.
  unfold failing_step. intros (Hs & Herr & Hbefore)%list_find_Some.
  split_and!; [done..|]. intros p st' Hp Hlt.
  specialize (Hbefore p st' Hp Hlt).
  destruct (step_error drv device st'); [|done]. exfalso. by apply Hbefore.
Qed.

Lemma failing_step_None (drv : Driver) (device : Device) :
  failing_step drv device = None ↔ ∀ st, step_error drv device st = None.
Proof.
  unfold failing_step. rewrite list_find_None, Forall_forall. split.
  - intros Hall st.
    destruct (step_error drv device st) eqn:E; [|done].
    exfalso. assert (st ∈ steps) as Hin by (unfold steps; destruct st; set_solver).
    apply (Hall st Hin). by rewrite E.
  - intros Hall st _ Hne. by rewrite Hall in Hne.
Qed.



Lemma last_write_elem_of (name : string) (ws : list (string * Z)) (v : Z) :
  last_write name ws = Some v → (name, v) ∈ ws.
Proof.
  induction ws as [|[n v'] ws IH]; simpl; [done|].
  destruct (last_write name ws) as [v''|].
  - intros [= ->]. right. by apply IH.
  - case_decide; [|done]. intros [= ->]. subst. left.
Qed.

Lemma completed_ok (drv : Driver) (device : Device) (st : step) :
  st ∈ completed drv device → step_error drv device st = None.
Proof.
  unfold completed. destruct (failing_step drv device) as [[s st']|] eqn:Hfs.
  - apply failing_step_bound in Hfs as (_ & _ & Hbefore).
    intros (p & Hp)%list_elem_of_lookup.
    apply lookup_take_Some in Hp as [Hp Hlt]. by eapply Hbefore.
  - intros _. by apply failing_step_None.
Qed.

Lemma device_writes_elem_of (drv : Driver) (device : Device) (name : string) (v : Z) :
  (name, v) ∈ device_writes drv device →
  ∃ st, (name, v) ∈ step_writes drv device st ∧ step_error drv device st = None.
Proof.
  unfold device_writes. intros (st & Hin & Hst)%list_elem_of_bind.
  exists st. split; [done|]. by eapply completed_ok.
Qed.

Section loop_samples.
Context (drv : Driver).

Lemma loop_sample_Some (devs : list Device) (idx : Z) (name : string)
    (key : list string) (v : Z) :
  loop_sample drv idx devs name key = Some v →
  ∃ j dj, devs !! j = Some dj
    ∧ key = device_key (idx + Z.of_nat j) dj
    ∧ last_write name (device_writes drv dj) = Some v
    ∧ none_failed_before drv devs j.
Proof.
  revert idx. induction devs as [|device rest IH]; intros idx; simpl; [done|].
  destruct (failing_step drv device) as [fs|] eqn:Hfs.
  - case_decide; [|done]. intros Hlw.
    exists 0%nat, device. rewrite Z.add_0_r.
    split_and!; [done..|]. intros j' dj' Hlt. lia.
  - destruct (loop_sample drv (idx + 1) rest name key) as [v'|] eqn:Hrest.
    + intros [= ->]. apply IH in Hrest as (j & dj & Hj & Hkey & Hlw & Hbefore).
      exists (S j), dj. split_and!; [done| |done|].
      * rewrite Hkey. f_equal. lia.
      * intros [|j'] dj' Hlt Hj'; simpl in Hj'; [by simplify_eq|].
        eapply Hbefore; [|done]. lia.
    + case_decide; [|done]. intros Hlw.
      exists 0%nat, device. rewrite Z.add_0_r.
      split_and!; [done..|]. intros j' dj' Hlt. lia.
Qed.


End loop_samples.

(* ===================================================================== *)
(** ** What [Collect] sends *)
(* ===================================================================== *)

Lemma catalogDescs_descs_NoDup : NoDup catalogDescs.*2.
Proof. apply (bool_decide_unpack _). vm_compute. exact I. Qed.

Lemma catalogDescs_labels (name : string) (D : Desc) :
  (name, D) ∈ catalogDescs → variableLabels D = deviceLabels.
Proof.
  unfold catalogDescs. intros [[n info] [[= -> ->] Hin]]%list_elem_of_fmap.
  unfold gaugeMetrics_entries in Hin.
  repeat (apply elem_of_cons in Hin as [[= -> ->]|Hin]; [reflexivity|]).
  by apply elem_of_nil in Hin.
Qed.

Lemma wf_vecDesc (e : Exporter) (name : string) (vec : GaugeVec) :
  wf e → gauges e !! name = Some vec → (name, vecDesc vec) ∈ catalogDescs.
Proof.
  intros Hwf Hvec. pose proof (wf_lookup e name Hwf) as Hl.
  rewrite Hvec in Hl. simpl in Hl.
  apply elem_of_list_to_map; [apply catalogDescs_NoDup | done].
Qed.


Lemma foldl_app_values {X V Y : Type} (g : V → list Y) (l : list (X * V))
    (acc : list Y) :
  foldl (λ ch '(_, v), ch ++ g v) acc l = acc ++ (l ≫= (λ '(_, v), g v)).
Proof.
  revert acc. induction l as [|[x v] l IH]; intros acc; csimpl.
  - by rewrite app_nil_r.
  - rewrite IH. by rewrite <-app_assoc.
Qed.

Lemma collect_gauges_bind (R : MapRange) (e : Exporter) :
  collect_gauges R e = range R (gauges e) ≫= (λ '(_, vec), GaugeVec_Collect R vec).
Proof. unfold collect_gauges. by rewrite foldl_app_values. Qed.

Lemma elem_of_GaugeVec_Collect (R : MapRange) (vec : GaugeVec) (m : Metric) :
  m ∈ GaugeVec_Collect R vec ↔
    metricDesc m = vecDesc vec ∧ children vec !! labelValues m = Some (metricValue m).
Proof.
  unfold GaugeVec_Collect. rewrite list_elem_of_fmap. split.
  - intros [[lvs v] [-> Hin]]. by apply elem_of_range in Hin.
  - intros [HD Hl]. exists (labelValues m, metricValue m). split.
    + destruct m; simpl in *. by subst.
    + by apply elem_of_range.
Qed.

Lemma elem_of_collect_gauges (R : MapRange) (e : Exporter) (m : Metric) :
  m ∈ collect_gauges R e ↔
    ∃ name vec, gauges e !! name = Some vec
      ∧ metricDesc m = vecDesc vec
      ∧ children vec !! labelValues m = Some (metricValue m).
Proof.
  rewrite collect_gauges_bind, list_elem_of_bind. split.
  - intros [[name vec] [Hm Hin]]. apply elem_of_range in Hin.
    apply elem_of_GaugeVec_Collect in Hm. eauto.
  - intros (name & vec & Hvec & Hm). exists (name, vec). split.
    + by apply elem_of_GaugeVec_Collect.
    + by apply elem_of_range.
Qed.

(** A sample of a series is sent by the last loop of [Collect], and what
    that loop sends is a sample of a series. *)
Lemma collect_gauges_sample (R : MapRange) (e : Exporter) (m : Metric) :
  wf e →
  m ∈ collect_gauges R e ↔
    ∃ name, (name, metricDesc m) ∈ catalogDescs
      ∧ sample e name (labelValues m) = Some (metricValue m).
Proof.
  intros Hwf. rewrite elem_of_collect_gauges. unfold sample. split.
  - intros (name & vec & Hvec & HD & Hl). exists name. split.
    + rewrite HD. by eapply wf_vecDesc.
    + by rewrite Hvec.
  - intros (name & HD & Hs).
    destruct (gauges e !! name) as [vec|] eqn:Hvec; [|done]. simpl in Hs.
    exists name, vec. split_and!; [done| |done].
    pose proof (wf_vecDesc e name vec Hwf Hvec) as HD'.
    apply elem_of_list_to_map in HD, HD'; try apply catalogDescs_NoDup.
    congruence.
Qed.





(* ===================================================================== *)
(** ** One poll cycle, from the outside *)
(* ===================================================================== *)






(** Every sample present after [Collect] was written by the loop of that
    call: it belongs to a device the loop reached and to a query that
    succeeded on the answers of that cycle. *)
Lemma Collect_sample_written (R : MapRange) (drv : Driver) (e : Exporter)
    (name : string) (key : list string) (v : Z) :
  wf e →
  sample (after (Collect R drv e)) name key = Some v →
  ∃ j dj st, devices e !! j = Some dj
    ∧ key = device_key (Z.of_nat j) dj
    ∧ (name, v) ∈ step_writes drv dj st
    ∧ step_error drv dj st = None
    ∧ none_failed_before drv (devices e) j.
Proof.
  intros Hwf Hs.
  destruct (Collect_spec R drv e Hwf) as (_ & _ & _ & _ & _ & _ & Hsample).
  rewrite Hsample in Hs.
  apply loop_sample_Some in Hs as (j & dj & Hj & Hkey & Hlw & Hbefore).
  apply last_write_elem_of, device_writes_elem_of in Hlw as (st & Hin & Herr).
  exists j, dj, st. by rewrite Z.add_0_l in Hkey.
Qed.


Lemma collect_gauges_nil (R : MapRange) (e : Exporter) :
  wf e → (∀ name key, sample e name key = None) → collect_gauges R e = [].
Proof.
  intros Hwf Hnone.
  destruct (collect_gauges R e) as [|m ms] eqn:Hc; [done|].
  assert (m ∈ collect_gauges R e) as Hin by (rewrite Hc; left).
  apply collect_gauges_sample in Hin as (name & _ & Hs); [|done].
  by rewrite Hnone in Hs.
Qed.




(* ===================================================================== *)
(** ** The poll cycle: partial failure, success, stale data, health flag *)
(* ===================================================================== *)





(** C3. [Collect] empties every series before the loop over the devices
    runs, so whatever the exporter served before, a series holds after the
    call only samples written during that call: each belongs to a device the
    loop reached and to a query that succeeded on the answers of this cycle,
    and the series are the same as if the call were the first one. *)
Theorem C3_no_stale_samples (R0 R0' R : MapRange) (drv : Driver)
    (devs : list Device) (cycles cycles' : list Cycle) :
  let e := exporter_after R0 devs cycles in
  let r := Collect R drv e in
  (∀ name key, sample (reset_gauges R e) name key = None)
  ∧ (∀ name key v,
       sample (after r) name key = Some v →
       ∃ j dj st, devs !! j = Some dj
         ∧ key = [Itoa (Z.of_nat j); DeviceUUID dj; DeviceName dj]
         ∧ (name, v) ∈ step_writes drv dj st
         ∧ step_error drv dj st = None
         ∧ none_failed_before drv devs j)
  ∧ (∀ m, m ∈ sent r →
       m = Gauge_Metric (up (after r))
       ∨ ∃ name, (name, metricDesc m) ∈ catalogDescs
           ∧ sample (after r) name (labelValues m) = Some (metricValue m))
  ∧ (∀ name key,
       sample (after r) name key
         = sample (after (Collect R drv (exporter_after R0' devs cycles'))) name key).
Proof.
  intros e r.
  destruct (exporter_after_wf R0 devs cycles) as [Hwf Hdevs].
  destruct (exporter_after_wf R0' devs cycles') as [Hwf2 Hdevs2].
  fold e in Hwf, Hdevs.
  split_and!.
  - intros name key. apply reset_gauges_sample.
  - intros name key v Hs.
    destruct (Collect_sample_written R drv e name key v Hwf Hs)
      as (j & dj & st & Hj & Hkey & Hin & Herr & Hbefore).
    rewrite Hdevs in Hj, Hbefore. by exists j, dj, st.
  - intros m Hin.
    destruct (Collect_spec R drv e Hwf) as (_ & Hwf' & _ & Hsent & _).
    fold r in Hwf', Hsent. rewrite Hsent in Hin.
    apply elem_of_app in Hin as [Hin|Hin].
    + right. by apply collect_gauges_sample in Hin.
    + left. by apply list_elem_of_singleton in Hin.
  - intros name key.
    destruct (Collect_spec R drv e Hwf) as (_ & _ & _ & _ & _ & _ & Hs).
    destruct (Collect_spec R drv _ Hwf2) as (_ & _ & _ & _ & _ & _ & Hs2).
    unfold r. by rewrite Hs, Hs2, Hdevs, Hdevs2.
Qed.


(* ===================================================================== *)
(** ** Conversions in the device layer *)
(* ===================================================================== *)

Lemma fahrenheit_no_overflow (c : Z) :
  0 ≤ c < 2 ^ 32 → int_add (int_div (int_mul c 9) 5) 32 = Z.quot (c * 9) 5 + 32.
Proof.
  intros Hc. unfold int_add, int_div, int_mul.
  rewrite (int_wrap_small (c * 9)) by lia.
  assert (0 ≤ Z.quot (c * 9) 5 ≤ c * 9) as Hq.
  { rewrite Z.quot_div_nonneg by lia. split; [apply Z.div_pos; lia|].
    apply Z.div_le_upper_bound; lia. }
  rewrite (int_wrap_small (Z.quot (c * 9) 5)) by lia.
  apply int_wrap_small. lia.
Qed.

Lemma GetTemperature_success (drv : Driver) (s : Device) (c : Z) :
  temperature drv (d s) = (NVML_SUCCESS, c) →
  GetTemperature drv s = (Z.quot (C_uint c * 9) 5 + 32, C_uint c, None).
Proof.
  intros Ht. unfold GetTemperature. rewrite Ht.
  rewrite decide_False by (intros H; by apply H).
  rewrite int_of_C_uint. rewrite fahrenheit_no_overflow by apply C_uint_range.
  done.
Qed.

Lemma GetPowerUsage_success (drv : Driver) (s : Device) (mw : Z) :
  intProperty drv nvmlDeviceGetPowerUsage (d s) = (NVML_SUCCESS, mw) →
  GetPowerUsage drv s = (Z.quot (C_uint mw) 1000, None).
Proof.
  intros Hp. unfold GetPowerUsage, callGetIntFunc. rewrite Hp.
  rewrite decide_False by (intros H; by apply H).
  rewrite int_of_C_uint. unfold int_div.
  pose proof (C_uint_range mw) as Hr.
  rewrite int_wrap_small; [done|].
  rewrite Z.quot_div_nonneg by lia.
  assert (0 ≤ C_uint mw / 1000 ≤ C_uint mw); [|lia].
  split; [apply Z.div_pos; lia|]. apply Z.div_le_upper_bound; lia.
Qed.


(* ===================================================================== *)
(** ** Descriptors, conversions and the empty device list *)
(* ===================================================================== *)

Lemma bind_singleton_values {X V Y : Type} (g : V → Y) (l : list (X * V)) :
  l ≫= (λ '(_, v), [g v]) = g <$> l.*2.
Proof. induction l as [|[x v] l IH]; csimpl; [done|]. by rewrite IH. Qed.

Lemma Describe_perm (R : MapRange) (e : Exporter) :
  wf e → Describe R e ≡ₚ upDesc :: catalogDescs.*2.
Proof.
  intros [Hg Hu]. unfold Describe, GaugeVec_Describe.
  rewrite foldl_app_values, Hu. apply perm_skip.
  rewrite (bind_singleton_values vecDesc), (range_perm R).
  rewrite <-(map_to_list_to_map catalogDescs) by apply catalogDescs_NoDup.
  rewrite <-Hg, map_to_list_fmap.
  rewrite <-!list_fmap_compose.
  replace (vecDesc ∘ snd) with (snd ∘ prod_map (@id string) vecDesc); [done|].
  done.
Qed.

(** C6. Whatever scrapes were served before, and whether they succeeded or
    failed, [Describe] sends the same descriptors: the one of [up] and one
    per entry of [gaugeMetrics], in an order the runtime picks. *)
Theorem C6_describe_stable (R0 R R' : MapRange) (devs : list Device)
    (cycles cycles' : list Cycle) :
  Describe R (exporter_after R0 devs cycles) ≡ₚ upDesc :: catalogDescs.*2
  ∧ Describe R' (exporter_after R0 devs (cycles ++ cycles'))
      ≡ₚ Describe R (exporter_after R0 devs cycles)
  ∧ length (Describe R (exporter_after R0 devs cycles))
      = S (length gaugeMetrics_entries)
  ∧ NoDup (Describe R (exporter_after R0 devs cycles)).
Proof.
  pose proof (Describe_perm R _ (proj1 (exporter_after_wf R0 devs cycles))) as H1.
  pose proof (Describe_perm R' _
                (proj1 (exporter_after_wf R0 devs (cycles ++ cycles')))) as H2.
  split_and!; [done| | |].
  { by rewrite H2, <-H1. }
  { apply Permutation_length in H1. rewrite H1. reflexivity. }
  rewrite H1. apply NoDup_cons. split; [|apply catalogDescs_descs_NoDup].
  intros [[n D] [Heq Hin]]%list_elem_of_fmap. simpl in Heq. subst D.
  by apply catalogDescs_labels in Hin.
Qed.

(** C7. A temperature query that succeeds reads the Celsius value as an
    integer and computes Fahrenheit as C * 9 / 5 + 32 with a quotient
    truncated toward zero; 70 degrees Celsius give 158 degrees Fahrenheit. *)
Theorem C7_fahrenheit_conversion (drv : Driver) (s : Device) (c : Z) :
  temperature drv (d s) = (NVML_SUCCESS, c) →
  GetTemperature drv s = (Z.quot (C_uint c * 9) 5 + 32, C_uint c, None)
  ∧ (C_uint c = 70 → (GetTemperature drv s).1.1 = 158).
Proof.
  intros Ht. rewrite (GetTemperature_success drv s c Ht).
  split; [done|]. simpl. by intros ->.
Qed.

(** C7 at work: the healthy driver reports 70 degrees. *)
Lemma C7_fahrenheit_conversion_witness :
  GetTemperature healthy_driver gpu0 = (158, 70, None).
Proof.
  assert (temperature healthy_driver (d gpu0) = (NVML_SUCCESS, 70)) as H
    by reflexivity.
  destruct (C7_fahrenheit_conversion healthy_driver gpu0 70 H) as [Heq _].
  exact Heq.
Defined.






(** C10. With no device enumerated, [Collect] returns without a panic,
    makes no native call, leaves every series without a sample, and sends
    the [up] gauge with value 1 and nothing else. *)
Theorem C10_no_devices (R0 R : MapRange) (drv : Driver) (cycles : list Cycle) :
  let r := Collect R drv (exporter_after R0 [] cycles) in
  panicked r = false
  ∧ nativeCalls r = []
  ∧ (∀ name key, sample (after r) name key = None)
  ∧ sent r = [{| metricDesc := upDesc; labelValues := []; metricValue := 1 |}].
Proof.
  intros r.
  destruct (exporter_after_wf R0 [] cycles) as [Hwf Hdevs].
  destruct (Collect_spec R drv _ Hwf) as (Hp & Hwf' & _ & Hsent & Hcalls & Hup & Hs).
  fold r in Hp, Hwf', Hsent, Hcalls, Hup, Hs.
  rewrite Hdevs in Hcalls, Hup, Hs. simpl in Hup, Hs.
  split_and!; [done|done|done|].
  rewrite Hsent, (collect_gauges_nil R (after r)) by done.
  simpl. unfold Gauge_Metric. rewrite Hup. by destruct Hwf' as [_ ->].
Qed.

(* ===================================================================== *)
(** ** The device layer: errors, ranges, conversions *)
(* ===================================================================== *)

Lemma getGoError_failure (drv : Driver) (result : nvmlReturn_t) :
  result ≠ NVML_SUCCESS → getGoError drv result = Some (Errorf_nvml (errorString drv result)).
Proof.
  intros Hne. unfold getGoError. by rewrite decide_False by done.
Qed.

(** X1. The queries of the device layer return an error exactly when the
    native call does not return [NVML_SUCCESS], and the error is then the
    driver's message for that code; they never return [errNoError] or
    [errNoErrorString]. *)
Theorem query_error_iff_native_failure (drv : Driver) (s : Device) :
  (GetUtilization drv s).2 = method_error drv (utilizationRates drv (d s)).1
  ∧ (GetTemperature drv s).2 = method_error drv (temperature drv (d s)).1
  ∧ (GetPowerUsage drv s).2
      = method_error drv (intProperty drv nvmlDeviceGetPowerUsage (d s)).1
  ∧ (GetMemoryInfo drv s).2 = method_error drv (memoryInfo drv (d s)).1
  ∧ (UUID drv s).2 = method_error drv (textProperty drv nvmlDeviceGetUUID (d s)).1
  ∧ (Name drv s).2 = method_error drv (textProperty drv nvmlDeviceGetName (d s)).1.
Proof.
  unfold GetUtilization, GetTemperature, GetPowerUsage, GetMemoryInfo, UUID, Name,
    callGetIntFunc, callGetTextFunc, method_error.
  destruct (utilizationRates drv (d s)) as [r1 [gpu mem]].
  destruct (temperature drv (d s)) as [r2 c].
  destruct (intProperty drv nvmlDeviceGetPowerUsage (d s)) as [r3 mw].
  destruct (memoryInfo drv (d s)) as [r4 [[free total] used]].
  destruct (textProperty drv nvmlDeviceGetUUID (d s)) as [r5 uuid].
  destruct (textProperty drv nvmlDeviceGetName (d s)) as [r6 name].
  simpl.
  split_and!;
    match goal with
    | |- context [decide (?r = NVML_SUCCESS)] =>
        destruct (decide (r = NVML_SUCCESS)) as [->|Hne];
        [ rewrite decide_False by (intros H; by apply H); reflexivity
        | rewrite decide_True by done; simpl; by apply getGoError_failure ]
    end.
Qed.

Lemma int64_of_C_ulonglong (z : Z) :
  int64_of (C_ulonglong z) =
    if decide (C_ulonglong z < 2 ^ 63) then C_ulonglong z else C_ulonglong z - 2 ^ 64.
Proof.
  unfold int64_of, int_wrap.
  assert (0 ≤ C_ulonglong z < 2 ^ 64) as Hr
    by (unfold C_ulonglong; apply Z.mod_pos_bound; lia).
  case_decide.
  - rewrite Z.mod_small by lia. lia.
  - replace (C_ulonglong z + 2 ^ 63) with (C_ulonglong z - 2 ^ 63 + 1 * 2 ^ 64) by lia.
    rewrite Z.mod_add by lia. rewrite Z.mod_small by lia. lia.
Qed.

(** X3. [GetMemoryInfo] converts the driver's unsigned 64-bit byte counts to
    [int64]: a count below 2^63 is kept, a larger one comes out negative,
    lowered by 2^64. *)
Theorem GetMemoryInfo_int64_conversion (drv : Driver) (s : Device)
    (free total used : Z) :
  memoryInfo drv (d s) = (NVML_SUCCESS, (free, total, used)) →
  let conv z := if decide (C_ulonglong z < 2 ^ 63) then C_ulonglong z
                else C_ulonglong z - 2 ^ 64 in
  GetMemoryInfo drv s
    = ({| Free := conv free; Total := conv total; Used := conv used |}, None)
  ∧ (0 ≤ free < 2 ^ 63 → Free (GetMemoryInfo drv s).1 = free)
  ∧ (2 ^ 63 ≤ free < 2 ^ 64 → Free (GetMemoryInfo drv s).1 = free - 2 ^ 64).
Proof.
  intros Hm conv. unfold GetMemoryInfo. rewrite Hm.
  rewrite decide_False by (intros H; by apply H).
  rewrite !int64_of_C_ulonglong. fold (conv free) (conv total) (conv used).
  split_and!; [done|..]; intros Hr; simpl; unfold conv, C_ulonglong;
    rewrite Z.mod_small by lia; case_decide; lia.
Qed.

(** The conversion at work: 1000 bytes free stay 1000, and a count of
    2^64 - 1 is reported as -1. *)
Lemma GetMemoryInfo_int64_conversion_witness :
  Free (GetMemoryInfo healthy_driver gpu0).1 = 1000
  ∧ Total (GetMemoryInfo saturated_memory_driver gpu0).1 = -1.
Proof.
  split.
  - assert (memoryInfo healthy_driver (d gpu0) = (NVML_SUCCESS, (1000, 4000, 3000)))
      as H by reflexivity.
    destruct (GetMemoryInfo_int64_conversion healthy_driver gpu0 1000 4000 3000 H)
      as (_ & Hf & _).
    apply Hf. lia.
  - assert (memoryInfo saturated_memory_driver (d gpu0)
              = (NVML_SUCCESS, (0, 2 ^ 64 - 1, 0))) as H by reflexivity.
    destruct (GetMemoryInfo_int64_conversion saturated_memory_driver gpu0
                0 (2 ^ 64 - 1) 0 H) as (Heq & _ & _).
    rewrite Heq. reflexivity.
Defined.

Lemma GetUtilization_cases (drv : Driver) (s : Device) :
  (GetUtilization drv s).2 ≠ None ∧ (GetUtilization drv s).1 = (0, 0)
  ∨ ∃ gpu mem, GetUtilization drv s = (C_uint gpu, C_uint mem, None).
Proof.
  unfold GetUtilization. destruct (utilizationRates drv (d s)) as [r [gpu mem]].
  case_decide.
  - left. simpl. by rewrite getGoError_failure.
  - right. exists gpu, mem. by rewrite !int_of_C_uint.
Qed.

Lemma GetTemperature_cases (drv : Driver) (s : Device) :
  (GetTemperature drv s).2 ≠ None ∧ (GetTemperature drv s).1 = (0, 0)
  ∨ ∃ c, GetTemperature drv s = (Z.quot (C_uint c * 9) 5 + 32, C_uint c, None).
Proof.
  destruct (temperature drv (d s)) as [r c] eqn:Ht.
  destruct (decide (r = NVML_SUCCESS)) as [->|Hne].
  - right. exists c. by apply GetTemperature_success.
  - left. unfold GetTemperature. rewrite Ht, decide_True by done.
    simpl. by rewrite getGoError_failure.
Qed.

Lemma GetPowerUsage_cases (drv : Driver) (s : Device) :
  (GetPowerUsage drv s).2 ≠ None ∧ (GetPowerUsage drv s).1 = 0
  ∨ ∃ mw, GetPowerUsage drv s = (Z.quot (C_uint mw) 1000, None).
Proof.
  destruct (intProperty drv nvmlDeviceGetPowerUsage (d s)) as [r mw] eqn:Hp.
  destruct (decide (r = NVML_SUCCESS)) as [->|Hne].
  - right. exists mw. by apply GetPowerUsage_success.
  - left. unfold GetPowerUsage, callGetIntFunc. rewrite Hp, decide_True by done.
    simpl. by rewrite getGoError_failure.
Qed.

Lemma GetMemoryInfo_cases (drv : Driver) (s : Device) :
  (GetMemoryInfo drv s).2 ≠ None
    ∧ (GetMemoryInfo drv s).1 = {| Free := 0; Total := 0; Used := 0 |}
  ∨ (GetMemoryInfo drv s).2 = None.
Proof.
  unfold GetMemoryInfo. destruct (memoryInfo drv (d s)) as [r [[free total] used]].
  case_decide.
  - left. simpl. by rewrite getGoError_failure.
  - by right.
Qed.

Lemma quot_bounds (a b : Z) : 0 ≤ a → 0 < b → 0 ≤ Z.quot a b ≤ a.
Proof.
  intros Ha Hb. rewrite Z.quot_div_nonneg by lia. split.
  - apply Z.div_pos; lia.
  - apply Z.div_le_upper_bound; nia.
Qed.

(** X2. Whatever the driver answers, the integers the queries return are in
    range: utilization and Celsius lie in [0, 2^32), a successful
    temperature query gives a Fahrenheit value of at least 32 and at most
    7730941163, and the power in watts lies in [0, 4294967]. A failed
    query returns zeros beside its error. *)
Theorem reading_bounds (drv : Driver) (s : Device) :
  (0 ≤ (GetUtilization drv s).1.1 < 2 ^ 32 ∧ 0 ≤ (GetUtilization drv s).1.2 < 2 ^ 32)
  ∧ 0 ≤ (GetTemperature drv s).1.2 < 2 ^ 32
  ∧ ((GetTemperature drv s).2 = None → 32 ≤ (GetTemperature drv s).1.1 ≤ 7730941163)
  ∧ 0 ≤ (GetPowerUsage drv s).1 ≤ 4294967
  ∧ ((GetUtilization drv s).2 ≠ None → (GetUtilization drv s).1 = (0, 0))
  ∧ ((GetTemperature drv s).2 ≠ None → (GetTemperature drv s).1 = (0, 0))
  ∧ ((GetPowerUsage drv s).2 ≠ None → (GetPowerUsage drv s).1 = 0)
  ∧ ((GetMemoryInfo drv s).2 ≠ None →
     (GetMemoryInfo drv s).1 = {| Free := 0; Total := 0; Used := 0 |}).
Proof.
  split.
  { destruct (GetUtilization_cases drv s) as [[_ ->]|(gpu & mem & ->)]; simpl.
    - lia.
    - pose proof (C_uint_range gpu). pose proof (C_uint_range mem). lia. }
  split.
  { destruct (GetTemperature_cases drv s) as [[_ ->]|(c & ->)]; simpl.
    - lia.
    - apply C_uint_range. }
  split.
  { destruct (GetTemperature_cases drv s) as [[He _]|(c & ->)]; [done|]. simpl.
    intros _. pose proof (C_uint_range c).
    assert (0 ≤ Z.quot (C_uint c * 9) 5) by (apply quot_bounds; lia).
    assert (Z.quot (C_uint c * 9) 5 ≤ 7730941131); [|lia].
    rewrite Z.quot_div_nonneg by lia. apply Z.div_le_upper_bound; lia. }
  split.
  { destruct (GetPowerUsage_cases drv s) as [[_ ->]|(mw & ->)]; simpl; [lia|].
    pose proof (C_uint_range mw). rewrite Z.quot_div_nonneg by lia. split.
    - apply Z.div_pos; lia.
    - assert (C_uint mw / 1000 < 4294968); [|lia].
      apply Z.div_lt_upper_bound; lia. }
  split.
  { destruct (GetUtilization_cases drv s) as [[_ ->]|(gpu & mem & ->)]; done. }
  split.
  { destruct (GetTemperature_cases drv s) as [[_ ->]|(c & ->)]; done. }
  split.
  { destruct (GetPowerUsage_cases drv s) as [[_ ->]|(mw & ->)]; done. }
  destruct (GetMemoryInfo_cases drv s) as [[_ ->]|He]; [done|]. by rewrite He.
Qed.

(* ===================================================================== *)
(** ** Enumeration and construction *)
(* ===================================================================== *)

Lemma newDevice_ok (drv : Driver) (k : Z) :
  enumerates_ok drv k →
  newDevice drv (handleByIndex drv k).2 k = (enumerated drv k, None).
Proof.
  intros (_ & Hu & Hn). unfold newDevice, UUID, Name, callGetTextFunc, enumerated.
  simpl.
  destruct (textProperty drv nvmlDeviceGetUUID (handleByIndex drv k).2) as [r1 uuid].
  destruct (textProperty drv nvmlDeviceGetName (handleByIndex drv k).2) as [r2 name].
  simpl in *. subst. by rewrite !decide_False by (intros H; by apply H).
Qed.

Lemma newDevice_fails (drv : Driver) (k : Z) :
  (handleByIndex drv k).1 = NVML_SUCCESS → ¬ enumerates_ok drv k →
  (newDevice drv (handleByIndex drv k).2 k).2 ≠ None.
Proof.
  intros Hh Hnot. unfold newDevice, UUID, Name, callGetTextFunc. simpl.
  destruct (textProperty drv nvmlDeviceGetUUID (handleByIndex drv k).2)
    as [r1 uuid] eqn:H1.
  destruct (textProperty drv nvmlDeviceGetName (handleByIndex drv k).2)
    as [r2 name] eqn:H2.
  destruct (decide (r1 = NVML_SUCCESS)) as [->|Hne1].
  - rewrite decide_False by (intros H; by apply H). simpl.
    destruct (decide (r2 = NVML_SUCCESS)) as [->|Hne2].
    + destruct Hnot. unfold enumerates_ok. by rewrite H1, H2.
    + rewrite decide_True by done. simpl. by rewrite getGoError_failure.
  - rewrite decide_True by done. simpl.
    rewrite getGoError_failure by done. by rewrite decide_True.
Qed.

Lemma GetDevices_loop_spec (drv : Driver) (n : nat) :
  ∀ (a : nat) (devices : list Device),
  Z.of_nat a + Z.of_nat n ≤ 2 ^ 32 →
  length devices = (a + n)%nat →
  ( (∀ k, (a ≤ k < a + n)%nat → enumerates_ok drv (Z.of_nat k))
    ∧ GetDevices_loop drv n (Z.of_nat a) devices
        = (take a devices ++ enumerated_range drv a n, None) )
  ∨ ∃ (k : nat) (err : error) (devs : list Device),
      (a ≤ k < a + n)%nat
      ∧ (∀ k', (a ≤ k' < k)%nat → enumerates_ok drv (Z.of_nat k'))
      ∧ ¬ enumerates_ok drv (Z.of_nat k)
      ∧ GetDevices_loop drv n (Z.of_nat a) devices = (devs, Some err)
      ∧ length devs = length devices
      ∧ take k devs = take a devices ++ enumerated_range drv a (k - a)
      ∧ drop (S k) devs = drop (S k) devices.
Proof.
  induction n as [|n IH]; intros a devices Hbound Hlen.
  - left. split; [intros k; lia|]. simpl. unfold enumerated_range. simpl.
    rewrite app_nil_r, take_ge by lia. done.
  - simpl. unfold C_uint. rewrite Z.mod_small by lia.
    destruct (handleByIndex drv (Z.of_nat a)) as [result nvdev] eqn:Hh.
    destruct (decide (enumerates_ok drv (Z.of_nat a))) as [Hok|Hnot].
    + pose proof Hok as (Hr & _). rewrite Hh in Hr. simpl in Hr. subst result.
      rewrite decide_False by (intros H; by apply H).
      pose proof (newDevice_ok drv (Z.of_nat a) Hok) as Hnd.
      rewrite Hh in Hnd. simpl in Hnd. rewrite Hnd.
      rewrite decide_False by (intros H; by apply H).
      rewrite Nat2Z.id.
      replace (Z.of_nat a + 1) with (Z.of_nat (S a)) by lia.
      set (devices1 := <[a := enumerated drv (Z.of_nat a)]> devices).
      assert (take (S a) devices1 = take a devices ++ [enumerated drv (Z.of_nat a)])
        as Htake.
      { rewrite (take_S_r devices1 a (enumerated drv (Z.of_nat a))).
        - unfold devices1. by rewrite take_insert_ge.
        - unfold devices1. apply list_lookup_insert_eq. lia. }
      destruct (IH (S a) devices1) as [[Hall Hloop]|(k & err & devs & Hk & Hbefore & Hbad & Hloop & Hl & Ht & Hd)].
      * lia.
      * unfold devices1. rewrite length_insert. lia.
      * left. split.
        -- intros k Hk. destruct (decide (k = a)) as [->|]; [done|]. apply Hall. lia.
        -- rewrite Hloop, Htake. unfold enumerated_range. simpl.
           by rewrite <-app_assoc.
      * right. exists k, err, devs. split_and!; [lia|lia| |exact Hbad|exact Hloop| | |].
        -- intros k' Hk'. destruct (decide (k' = a)) as [->|]; [done|].
           apply Hbefore. lia.
        -- rewrite Hl. unfold devices1. by rewrite length_insert.
        -- rewrite Ht, Htake. unfold enumerated_range.
           replace (k - a)%nat with (S (k - S a)) by lia. simpl.
           by rewrite <-app_assoc.
        -- rewrite Hd. unfold devices1. apply drop_insert_lt. lia.
    + right. exists a.
      destruct (decide (result = NVML_SUCCESS)) as [->|Hne].
      * rewrite decide_False by (intros H; by apply H).
        assert ((handleByIndex drv (Z.of_nat a)).1 = NVML_SUCCESS) as Hr
          by (by rewrite Hh).
        pose proof (newDevice_fails drv (Z.of_nat a) Hr Hnot) as Hf.
        rewrite Hh in Hf. simpl in Hf.
        destruct (newDevice drv nvdev (Z.of_nat a)) as [dev [err|]]; [|done].
        rewrite decide_True by done. rewrite Nat2Z.id.
        exists err, (<[a := dev]> devices).
        split_and!; [lia|lia|intros k'; lia|exact Hnot|done|by rewrite length_insert| |].
        -- rewrite take_insert_ge by lia. unfold enumerated_range.
           replace (a - a)%nat with 0%nat by lia. simpl. by rewrite app_nil_r.
        -- apply drop_insert_lt. lia.
      * rewrite decide_True by done. rewrite getGoError_failure by done.
        eexists _, devices.
        split_and!; [lia|lia|intros k'; lia|exact Hnot|done|done| |done].
        unfold enumerated_range.
        replace (a - a)%nat with 0%nat by lia. simpl. by rewrite app_nil_r.
Qed.

Lemma GetDevices_unfold (drv : Driver) (cnt : Z) :
  deviceCount drv = (NVML_SUCCESS, cnt) →
  GetDevices drv =
    GetDevices_loop drv (Z.to_nat (C_uint cnt)) 0
      (replicate (Z.to_nat (C_uint cnt)) zeroDevice).
Proof.
  intros Hc. unfold GetDevices, GetDeviceCount. rewrite Hc.
  rewrite decide_False by (intros H; by apply H).
  rewrite decide_False by (intros H; by apply H).
  by rewrite int_of_C_uint.
Qed.

Lemma GetDevices_cases (drv : Driver) (cnt : Z) :
  deviceCount drv = (NVML_SUCCESS, cnt) →
  let n := Z.to_nat (C_uint cnt) in
  ( (∀ k, (k < n)%nat → enumerates_ok drv (Z.of_nat k))
    ∧ GetDevices drv = (enumerated_range drv 0 n, None) )
  ∨ ∃ (k : nat) (err : error) (devs : list Device),
      (k < n)%nat
      ∧ (∀ k', (k' < k)%nat → enumerates_ok drv (Z.of_nat k'))
      ∧ ¬ enumerates_ok drv (Z.of_nat k)
      ∧ GetDevices drv = (devs, Some err)
      ∧ length devs = n
      ∧ take k devs = enumerated_range drv 0 k
      ∧ drop (S k) devs = replicate (n - S k) zeroDevice.
Proof.
  intros Hc n. rewrite (GetDevices_unfold drv cnt Hc). fold n.
  pose proof (C_uint_range cnt) as Hr.
  destruct (GetDevices_loop_spec drv n 0%nat (replicate n zeroDevice))
    as [[Hall Hloop]|(k & err & devs & Hk & Hbefore & Hbad & Hloop & Hl & Ht & Hd)].
  - unfold n. lia.
  - by rewrite length_replicate.
  - left. split; [intros k Hk; apply Hall; lia|]. exact Hloop.
  - right. exists k, err, devs. split_and!; [lia| |exact Hbad|exact Hloop| | |].
    + intros k' Hk'. apply Hbefore. lia.
    + by rewrite Hl, length_replicate.
    + rewrite Ht. simpl. by rewrite Nat.sub_0_r.
    + by rewrite Hd, drop_replicate.
Qed.

(** X4. When the count and, for every index below it, the handle, the UUID
    and the name are obtained, [GetDevices] returns one device per index, in
    order, each carrying its index, handle, UUID and name, and no error;
    [NewExporter] then builds its exporter on that list. *)
Theorem GetDevices_enumerates (R : MapRange) (drv : Driver) (cnt : Z) :
  deviceCount drv = (NVML_SUCCESS, cnt) →
  (∀ k, (k < Z.to_nat (C_uint cnt))%nat → enumerates_ok drv (Z.of_nat k)) →
  GetDevices drv = (enumerated_range drv 0 (Z.to_nat (C_uint cnt)), None)
  ∧ length (GetDevices drv).1 = Z.to_nat (C_uint cnt)
  ∧ (∀ k dev, (GetDevices drv).1 !! k = Some dev →
       i dev = Z.of_nat k ∧ d dev = (handleByIndex drv (Z.of_nat k)).2)
  ∧ NewExporter R drv
      = (Some (newExporterWith R (enumerated_range drv 0 (Z.to_nat (C_uint cnt)))), None).
Proof.
  intros Hc Hall.
  assert (GetDevices drv = (enumerated_range drv 0 (Z.to_nat (C_uint cnt)), None))
    as Hg.
  { destruct (GetDevices_cases drv cnt Hc)
      as [[_ Hg]|(k & err & devs & Hk & _ & Hbad & _)]; [done|].
    destruct Hbad. by apply Hall. }
  split_and!; [done| | |].
  - rewrite Hg. simpl. unfold enumerated_range. by rewrite length_fmap, length_seq.
  - rewrite Hg. simpl. unfold enumerated_range. intros k dev Hk.
    rewrite list_lookup_fmap in Hk.
    destruct (seq 0 (Z.to_nat (C_uint cnt)) !! k) as [k'|] eqn:Hseq; [|done].
    apply lookup_seq in Hseq as [-> _]. simpl in Hk. by simplify_eq.
  - unfold NewExporter. rewrite Hg. by rewrite decide_False by (intros H; by apply H).
Qed.

(** The three devices of the healthy driver. *)
Lemma GetDevices_enumerates_witness :
  GetDevices healthy_driver = ([gpu0; gpu1; gpu2], None).
Proof.
  assert (deviceCount healthy_driver = (NVML_SUCCESS, 3)) as H1 by reflexivity.
  assert (∀ k, (k < Z.to_nat (C_uint 3))%nat →
            enumerates_ok healthy_driver (Z.of_nat k)) as H2.
  { intros k Hk. by repeat split. }
  destruct (GetDevices_enumerates range_canonical healthy_driver 3 H1 H2) as [Hg _].
  exact Hg.
Defined.

(** X5. [GetDevices] stops at the first index for which the handle, the UUID
    or the name cannot be obtained: it returns an error, and a slice of the
    full length whose entries before that index are the devices enumerated so
    far and whose entries after it are still zero values; [NewExporter] then
    returns that error and no exporter. *)
Theorem GetDevices_fail_fast (R : MapRange) (drv : Driver) (cnt : Z) (k : nat) :
  deviceCount drv = (NVML_SUCCESS, cnt) →
  (k < Z.to_nat (C_uint cnt))%nat →
  (∀ k', (k' < k)%nat → enumerates_ok drv (Z.of_nat k')) →
  ¬ enumerates_ok drv (Z.of_nat k) →
  ∃ err devs,
    GetDevices drv = (devs, Some err)
    ∧ length devs = Z.to_nat (C_uint cnt)
    ∧ take k devs = enumerated_range drv 0 k
    ∧ drop (S k) devs = replicate (Z.to_nat (C_uint cnt) - S k) zeroDevice
    ∧ NewExporter R drv = (None, Some err).
Proof.
  intros Hc Hk Hbefore Hbad.
  destruct (GetDevices_cases drv cnt Hc)
    as [[Hall _]|(k2 & err & devs & Hk2 & Hbefore2 & Hbad2 & Hg & Hl & Ht & Hd)].
  { destruct Hbad. by apply Hall. }
  assert (k2 = k) as ->.
  { destruct (decide (k2 < k)%nat); [destruct Hbad2; by apply Hbefore|].
    destruct (decide (k < k2)%nat); [destruct Hbad; by apply Hbefore2|]. lia. }
  exists err, devs. split_and!; [done..|].
  unfold NewExporter. rewrite Hg. by rewrite decide_True.
Qed.

(** Three devices, the UUID of the second one cannot be read: the first
    entry is enumerated, the third is still the zero value. *)
Lemma GetDevices_fail_fast_witness :
  ∃ err devs,
    GetDevices (uuid_fails_on 1) = (devs, Some err)
    ∧ length devs = 3%nat
    ∧ take 1 devs = [gpu0]
    ∧ drop 2 devs = [zeroDevice]
    ∧ NewExporter range_canonical (uuid_fails_on 1) = (None, Some err).
Proof.
  assert (deviceCount (uuid_fails_on 1) = (NVML_SUCCESS, 3)) as H1 by reflexivity.
  assert ((1 < Z.to_nat (C_uint 3))%nat) as H2 by (vm_compute; lia).
  assert (∀ k', (k' < 1)%nat → enumerates_ok (uuid_fails_on 1) (Z.of_nat k')) as H3.
  { intros [|k'] Hk'; [|lia]. by repeat split. }
  assert (¬ enumerates_ok (uuid_fails_on 1) (Z.of_nat 1)) as H4.
  { intros (_ & Hu & _). discriminate Hu. }
  destruct (GetDevices_fail_fast range_canonical (uuid_fails_on 1) 3 1 H1 H2 H3 H4)
    as (err & devs & Hg & Hl & Ht & Hd & Hn).
  exists err, devs. split_and!; [exact Hg | exact Hl | exact Ht | exact Hd | exact Hn].
Defined.

(** X6. When the device count cannot be read, [GetDevices] returns no device
    and the driver's error, and [NewExporter] no exporter. *)
Theorem GetDevices_count_failure (R : MapRange) (drv : Driver) :
  (deviceCount drv).1 ≠ NVML_SUCCESS →
  let err := Some (Errorf_nvml (errorString drv (deviceCount drv).1)) in
  GetDevices drv = ([], err) ∧ NewExporter R drv = (None, err).
Proof.
  intros Hne err. unfold NewExporter, GetDevices, GetDeviceCount.
  destruct (deviceCount drv) as [result cnt]. simpl in *.
  rewrite decide_True by done. rewrite getGoError_failure by done.
  by rewrite !decide_True by done.
Qed.

(** The count cannot be read. *)
Lemma GetDevices_count_failure_witness :
  GetDevices uninitialized_driver = ([], Some (Errorf_nvml "Uninitialized"))
  ∧ NewExporter range_canonical uninitialized_driver
      = (None, Some (Errorf_nvml "Uninitialized")).
Proof.
  assert ((deviceCount uninitialized_driver).1 ≠ NVML_SUCCESS) as H by (by intros ?).
  exact (GetDevices_count_failure range_canonical uninitialized_driver H).
Defined.

(** X7. An exporter that [NewExporter] returned has one device per index the
    driver counted, the device at position [j] carries the index [j] (so the
    [device_id] label [Collect] writes is the device's own index), no series
    has a sample yet, [up] is 0, and the schema is in place. *)
Theorem NewExporter_success (R : MapRange) (drv : Driver) (e : Exporter) :
  NewExporter R drv = (Some e, None) →
  (deviceCount drv).1 = NVML_SUCCESS
  ∧ length (devices e) = Z.to_nat (C_uint (deviceCount drv).2)
  ∧ (∀ j dev, devices e !! j = Some dev →
       enumerates_ok drv (Z.of_nat j)
       ∧ dev = enumerated drv (Z.of_nat j)
       ∧ device_key (Z.of_nat j) dev = [Itoa (i dev); DeviceUUID dev; DeviceName dev])
  ∧ (∀ name key, sample e name key = None)
  ∧ gaugeValue (up e) = 0
  ∧ wf e.
Proof.
  intros Hnew.
  destruct (deviceCount drv) as [result cnt] eqn:Hc. simpl.
  destruct (decide (result = NVML_SUCCESS)) as [->|Hne].
  2:{ assert ((deviceCount drv).1 ≠ NVML_SUCCESS) as Hne' by (by rewrite Hc).
      destruct (GetDevices_count_failure R drv Hne') as [_ Hn]. congruence. }
  destruct (GetDevices_cases drv cnt Hc)
    as [[Hall Hg]|(k & err & devs & _ & _ & _ & Hg & _)].
  2:{ unfold NewExporter in Hnew. rewrite Hg in Hnew.
      by rewrite decide_True in Hnew by done. }
  unfold NewExporter in Hnew. rewrite Hg in Hnew.
  rewrite decide_False in Hnew by (intros H; by apply H).
  injection Hnew as <-.
  destruct (newExporterWith_frame R (enumerated_range drv 0 (Z.to_nat (C_uint cnt))))
    as [Hup Hdev].
  split_and!; [done| | | | |].
  - rewrite Hdev. unfold enumerated_range. by rewrite length_fmap, length_seq.
  - rewrite Hdev. unfold enumerated_range. intros j dev Hj.
    rewrite list_lookup_fmap in Hj.
    destruct (seq 0 (Z.to_nat (C_uint cnt)) !! j) as [j'|] eqn:Hseq; [|done].
    apply lookup_seq in Hseq as [-> Hlt]. simpl in Hj. simplify_eq.
    split_and!; [by apply Hall|done|done].
  - apply newExporterWith_sample.
  - by rewrite Hup.
  - apply newExporterWith_wf.
Qed.

(** The exporter built on the healthy driver. *)
Lemma NewExporter_success_witness :
  ∃ e, NewExporter range_canonical healthy_driver = (Some e, None)
       ∧ devices e = [gpu0; gpu1; gpu2]
       ∧ gaugeValue (up e) = 0.
Proof.
  exists (newExporterWith range_canonical [gpu0; gpu1; gpu2]).
  assert (NewExporter range_canonical healthy_driver
            = (Some (newExporterWith range_canonical [gpu0; gpu1; gpu2]), None)) as H.
  { unfold NewExporter.
    replace (GetDevices healthy_driver) with ([gpu0; gpu1; gpu2], @None error)
      by reflexivity.
    reflexivity. }
  destruct (NewExporter_success range_canonical healthy_driver _ H)
    as (_ & _ & _ & _ & Hu & _).
  split_and!; [exact H | apply newExporterWith_frame | exact Hu].
Defined.

(* ===================================================================== *)
(** ** More on [Collect] *)
(* ===================================================================== *)








Lemma catalog_fqName (name : string) (D : Desc) :
  (name, D) ∈ catalogDescs → fqName D = "nvml_" +:+ name.
Proof.
  unfold catalogDescs. intros [[n info] [[= -> ->] Hin]]%list_elem_of_fmap.
  unfold gaugeMetrics_entries in Hin.
  repeat (apply elem_of_cons in Hin as [[= -> ->]|Hin]; [reflexivity|]).
  by apply elem_of_nil in Hin.
Qed.

(** X10. No call of [Collect] changes the schema or the device list: the
    exporter keeps the nine vectors [NewExporter] created, each named
    [nvml_<name>] with the labels [device_id], [device_uuid], [device_name],
    the descriptor of [up], and the devices enumerated at construction. *)
Theorem schema_and_devices_fixed (R0 : MapRange) (devs : list Device)
    (cycles : list Cycle) :
  let e := exporter_after R0 devs cycles in
  devices e = devs
  ∧ gaugeDesc (up e) = upDesc
  ∧ (∀ name, is_Some (gauges e !! name) ↔
       name ∈ ["power_watts"; "fan_speed"; "gpu_percent"; "memory_free";
               "memory_total"; "memory_used"; "memory_percent";
               "temperature_fahrenheit"; "temperature_celsius"])
  ∧ (∀ name vec, gauges e !! name = Some vec →
       fqName (vecDesc vec) = "nvml_" +:+ name
       ∧ variableLabels (vecDesc vec) = ["device_id"; "device_uuid"; "device_name"]).
Proof.
  intros e. destruct (exporter_after_wf R0 devs cycles) as [Hwf Hdevs].
  fold e in Hwf, Hdevs.
  split_and!; [done|by destruct Hwf| |].
  - intros name. split.
    + intros [vec Hvec]. pose proof (wf_vecDesc e name vec Hwf Hvec) as Hin.
      change (name ∈ catalogDescs.*1).
      apply list_elem_of_fmap. by exists (name, vecDesc vec).
    + intros Hin. by apply wf_in_gauges.
  - intros name vec Hvec. pose proof (wf_vecDesc e name vec Hwf Hvec) as Hin.
    split; [by apply catalog_fqName | by eapply catalogDescs_labels].
Qed.

Lemma Exporter_eq (e1 e2 : Exporter) :
  up e1 = up e2 → gauges e1 = gauges e2 → devices e1 = devices e2 → e1 = e2.
Proof. destruct e1, e2; simpl; congruence. Qed.

Lemma reset_gauges_order (R R' : MapRange) (e : Exporter) :
  reset_gauges R e = reset_gauges R' e.
Proof.
  destruct (reset_gauges_gauges R e) as (Hg & Hu & Hd).
  destruct (reset_gauges_gauges R' e) as (Hg' & Hu' & Hd').
  apply Exporter_eq; congruence.
Qed.

Lemma GaugeVec_Collect_order (R R' : MapRange) (vec : GaugeVec) :
  GaugeVec_Collect R vec ≡ₚ GaugeVec_Collect R' vec.
Proof. unfold GaugeVec_Collect. by rewrite (range_perm R), (range_perm R'). Qed.

Lemma collect_gauges_order (R R' : MapRange) (e : Exporter) :
  collect_gauges R e ≡ₚ collect_gauges R' e.
Proof.
  rewrite !collect_gauges_bind.
  transitivity (range R (gauges e) ≫= (λ '(_, vec), GaugeVec_Collect R' vec)).
  - induction (range R (gauges e)) as [|[n vec] l IH]; csimpl; [done|].
    by rewrite IH, (GaugeVec_Collect_order R R').
  - by rewrite (range_perm R), (range_perm R').
Qed.

(** X11. The order in which the runtime walks the maps has no effect on what
    [Collect] leaves in the exporter, on the native calls it makes or on
    the set of samples it sends: two orders give the same samples, each the
    same number of times, and [up] comes last in both. *)
Theorem Collect_order_independent (R R' : MapRange) (drv : Driver) (e : Exporter) :
  after (Collect R drv e) = after (Collect R' drv e)
  ∧ nativeCalls (Collect R drv e) = nativeCalls (Collect R' drv e)
  ∧ panicked (Collect R drv e) = panicked (Collect R' drv e)
  ∧ sent (Collect R drv e) ≡ₚ sent (Collect R' drv e)
  ∧ last (sent (Collect R drv e)) = last (sent (Collect R' drv e)).
Proof.
  unfold Collect. rewrite (reset_gauges_order R R' e).
  destruct (GetTelemetryFromNVML drv _) as [w|w]; simpl.
  - split_and!; [done..| |by rewrite !last_snoc].
    by rewrite (collect_gauges_order R R').
  - done.
Qed.




